(** * coopfuture: cooperative futures over stackful contexts

    A shallow embedding of [src/coopfuture.hpp] (namespace [fut]): the
    [Scheduler] with its ready and task queues, the resolution loop, [spawn],
    and the [Future] classes with [await], the completion methods, the
    conversion operator and the destructors.

    - Objects live in a [World]: the scheduler, the [Future] objects by
      address, the stream [std::cerr], allocator counters and the state of the
      user's code; its [history] is ghost state, the events the code went
      through, for the statements about their order.
    - A member function is a function from the world to a [Res]: it is either
      [Done] (returned, threw, or ended the process) or it has executed a
      [jump_fcontext] and is suspended ([Yield]) with the rest of its body as
      the continuation that runs when some context jumps back.
    - Exceptions are values of [exn]; [try]/[catch], the dynamic exception
      specification [throw (T)] and [noexcept] are combinators on [Res], with
      the meaning they have in C++11 and C++14, the standards in which the
      header compiles. *)

From Stdlib Require Import Ascii String.
From stdpp Require Import base option list gmap.

Set Implicit Arguments.

(** ** Data *)

(** [boost::context::fcontext_t]: an opaque handle of a suspended context.  A
    handle is identified with the slot [jump_fcontext] saved it into. *)
Definition fcontext_t := nat.

(** [FContextCons*]: a (possibly null) pointer to a cell of the list of
    waiting contexts; a cell has the fields [context] and [nextPointer]. *)
Inductive FContextCons : Type :=
| nullptr
| Cons (context : fcontext_t) (nextPointer : FContextCons).

(** The contexts of the cells, from the head on. *)
Fixpoint contexts (cons : FContextCons) : list fcontext_t :=
  match cons with
  | nullptr => []
  | Cons c next => c :: contexts next
  end.

(** [enum class State]. *)
Inductive State : Type := UNRESOLVED | SUCCESS | FAILURE | UNEXPECTED.

Definition State_eqb (a b : State) : bool :=
  match a, b with
  | UNRESOLVED, UNRESOLVED | SUCCESS, SUCCESS
  | FAILURE, FAILURE | UNEXPECTED, UNEXPECTED => true
  | _, _ => false
  end.

(** A task closure of [Scheduler::tasks].  Only [spawn] pushes tasks, so a
    closure is one of its two lambdas; it captures (by copy) the pointer [fut]
    and the function object [call], which is named by an index. *)
Inductive Task : Type :=
| TaskValue (fut : nat) (call : nat)
| TaskVoid (fut : nat) (call : nat).

(** [boost::coroutines::stack_context], as far as the code uses it. *)
Record stack_context : Type := mkStack { sp : nat; size : nat }.

(** The members of [Scheduler] that change after construction, and
    [contextSize].  The three [std::function] members are fixed by the
    constructor; they are parameters of the section below. *)
Record Scheduler : Type := mkScheduler {
  ready : list fcontext_t;
  contextSize : nat;
  tasks : list Task
}.

(** Ways in which the code leaves defined behaviour. *)
Inductive UB : Type :=
| DanglingFuture       (* a [Future*] that points to no object *)
| InactiveMember       (* reading a member of [Contents] that was not the last written *)
| FrontOfEmptyDeque    (* [front()] or [pop_front()] of an empty [std::deque] *)
| DanglingContext.     (* a jump to a context that no [jump_fcontext] saved *)

Section CoopFuture.

(** [ValueType] and [ErrorType] are the template parameters of [Future];
    [User] is the state of the code outside the header. *)
Context {ValueType ErrorType User : Type}.

(** What a [throw] can carry, by the first handler of the lambdas of [spawn]
    that matches it: [catch (FutureAlreadyFulfilled faf)], then [catch (E e)],
    where [e] is the handler's copy, then [catch (...)]. *)
Inductive exn : Type :=
| FutureAlreadyFulfilled                 (* a [FutureAlreadyFulfilled], thrown by value *)
| FutureAlreadyFulfilledPtr              (* a [FutureAlreadyFulfilled*], see [complete] *)
| Error (e : ErrorType)                  (* an object of the error type *)
| Other (x : nat).                       (* anything else, by a number *)

(** [union Contents]: the member written last. *)
Inductive Contents : Type :=
| as_cons (c : FContextCons)            (* [contents.cons] *)
| as_error (e : ErrorType)              (* [contents.error] *)
| as_result (v : ValueType).            (* [contents.result] *)

(** The data members of [FutureBase] ([scheduler] is the one scheduler of the
    world). *)
Record FutureBase : Type := mkFuture {
  state : State;
  contents : Contents
}.

(** Ghost events, appended to [history] where the code performs them. *)
Inductive Event : Type :=
| EvNotifyReady (c : FContextCons)       (* [scheduler.notifyReady(c)] is entered *)
| EvState (this : nat) (s : State)       (* [state = s] in the Future at [this] *)
| EvPayload (this : nat)                 (* [contents.error = ...] or [contents.result = ...] *)
| EvSpawn (task : Task)                  (* [tasks.push_back(task)] in [spawn] *)
| EvRun (task : Task).                   (* [task()] in the resolution loop *)

Record World : Type := mkWorld {
  scheduler : Scheduler;
  futures : gmap nat FutureBase;         (* the Future objects, by address *)
  next_future : nat;                     (* the next address [new] returns *)
  next_context : nat;                    (* the next fresh [fcontext_t] slot *)
  stacks : list stack_context;           (* the allocated coroutine stacks *)
  next_stack : nat;
  cerr : list string;                    (* what was written to [std::cerr] *)
  history : list Event;
  user : User
}.

Definition with_scheduler (s : Scheduler) (w : World) : World :=
  mkWorld s (futures w) (next_future w) (next_context w) (stacks w)
          (next_stack w) (cerr w) (history w) (user w).

Definition with_futures (m : gmap nat FutureBase) (w : World) : World :=
  mkWorld (scheduler w) m (next_future w) (next_context w) (stacks w)
          (next_stack w) (cerr w) (history w) (user w).

Definition with_history (h : list Event) (w : World) : World :=
  mkWorld (scheduler w) (futures w) (next_future w) (next_context w) (stacks w)
          (next_stack w) (cerr w) h (user w).

Definition with_cerr (c : list string) (w : World) : World :=
  mkWorld (scheduler w) (futures w) (next_future w) (next_context w) (stacks w)
          (next_stack w) c (history w) (user w).

Definition with_ready (r : list fcontext_t) (w : World) : World :=
  with_scheduler (mkScheduler r (contextSize (scheduler w)) (tasks (scheduler w))) w.

Definition with_tasks (t : list Task) (w : World) : World :=
  with_scheduler (mkScheduler (ready (scheduler w)) (contextSize (scheduler w)) t) w.

Definition log_event (e : Event) (w : World) : World :=
  with_history (history w ++ [e]) w.

(** ** Control *)

(** How a call ends when it is not suspended.  The handler that
    [std::unexpected()] calls does not return (the default one calls
    [std::terminate()]), and neither does [std::terminate()]. *)
Inductive Outcome (A : Type) : Type :=
| Returns (a : A)
| Throws (x : exn)
| CallsUnexpected            (* [std::unexpected()] *)
| CallsTerminate             (* [std::terminate()] *)
| Undefined (u : UB)
| OutOfFuel.                 (* the model's bound on iterations was reached *)

Arguments Throws {A} x.
Arguments CallsUnexpected {A}.
Arguments CallsTerminate {A}.
Arguments Undefined {A} u.
Arguments OutOfFuel {A}.

(** The second argument of [jump_fcontext]: a saved context, or the context
    [make_fcontext(sc.sp, sc.size, loopEntry)] that enters the resolution loop
    on the stack [sc]. *)
Inductive Target : Type :=
| Resume (c : fcontext_t)
| Entry (sc : stack_context).

(** [Yield save to w k]: the code ran up to a [jump_fcontext(&save, to, ...)]
    in world [w]; when a later jump targets [save], in world [w'], it goes on
    as [k w']. *)
Inductive Res (A : Type) : Type :=
| Done (o : Outcome A) (w : World)
| Yield (save : fcontext_t) (to : Target) (w : World) (k : World -> Res A).

Definition M (A : Type) : Type := World -> Res A.

Definition ret {A} (a : A) : M A := fun w => Done (Returns a) w.
Definition throw {A} (x : exn) : M A := fun w => Done (Throws x) w.
Definition undefined {A} (u : UB) : M A := fun w => Done (Undefined u) w.
Definition std_unexpected {A} : M A := fun w => Done CallsUnexpected w.
Definition std_terminate {A} : M A := fun w => Done CallsTerminate w.

(** An outcome other than [Returns], at another result type. *)
Definition abrupt {A B} (o : Outcome A) : Outcome B :=
  match o with
  | Returns _ => OutOfFuel
  | Throws x => Throws x
  | CallsUnexpected => CallsUnexpected
  | CallsTerminate => CallsTerminate
  | Undefined u => Undefined u
  | OutOfFuel => OutOfFuel
  end.

Fixpoint res_bind {A B} (r : Res A) (f : A -> M B) : Res B :=
  match r with
  | Done (Returns a) w => f a w
  | Done o w => Done (abrupt o) w
  | Yield save to w k => Yield save to w (fun w' => res_bind (k w') f)
  end.

Definition bind {A B} (m : M A) (f : A -> M B) : M B :=
  fun w => res_bind (m w) f.

(** [try { r } catch ... ]: [h] is the list of handlers as one function, which
    rethrows what no handler matches. *)
Fixpoint res_catch {A} (r : Res A) (h : exn -> M A) : Res A :=
  match r with
  | Done (Throws x) w => h x w
  | Done o w => Done o w
  | Yield save to w k => Yield save to w (fun w' => res_catch (k w') h)
  end.

Definition try_catch {A} (m : M A) (h : exn -> M A) : M A :=
  fun w => res_catch (m w) h.

(** The dynamic exception specification [throw (T)]: an exception that [T]
    does not allow never leaves the function, [std::unexpected()] is called
    instead. *)
Fixpoint res_throw_spec {A} (allowed : exn -> bool) (r : Res A) : Res A :=
  match r with
  | Done (Throws x) w => if allowed x then Done (Throws x) w else Done CallsUnexpected w
  | Done o w => Done o w
  | Yield save to w k => Yield save to w (fun w' => res_throw_spec allowed (k w'))
  end.

Definition throw_spec {A} (allowed : exn -> bool) (m : M A) : M A :=
  fun w => res_throw_spec allowed (m w).

(** [noexcept]: an exception that would leave the function calls
    [std::terminate()]. *)
Fixpoint res_noexcept {A} (r : Res A) : Res A :=
  match r with
  | Done (Throws _) w => Done CallsTerminate w
  | Done o w => Done o w
  | Yield save to w k => Yield save to w (fun w' => res_noexcept (k w'))
  end.

Definition noexcept {A} (m : M A) : M A :=
  fun w => res_noexcept (m w).

(** The handler types of the two exception specifications of the header. *)
Definition is_FutureAlreadyFulfilled (x : exn) : bool :=
  match x with FutureAlreadyFulfilled => true | _ => false end.

Definition is_ErrorType (x : exn) : bool :=
  match x with Error _ => true | _ => false end.

Notation "x <- m ;; k" := (bind m (fun x => k))
  (at level 100, m at next level, right associativity).
Notation "m ;; k" := (bind m (fun _ => k))
  (at level 100, right associativity).

(** ** Primitives *)

(** Dereferencing a [Future*]. *)
Definition deref (this : nat) : M FutureBase := fun w =>
  match futures w !! this with
  | Some fut => Done (Returns fut) w
  | None => Done (Undefined DanglingFuture) w
  end.

(** [state = s;] in the Future at [this]. *)
Definition assign_state (this : nat) (s : State) : M unit := fun w =>
  match futures w !! this with
  | Some fut =>
      Done (Returns tt)
           (log_event (EvState this s)
              (with_futures (<[this := mkFuture s (contents fut)]> (futures w)) w))
  | None => Done (Undefined DanglingFuture) w
  end.

(** [contents.cons = c;] *)
Definition assign_cons (this : nat) (c : FContextCons) : M unit := fun w =>
  match futures w !! this with
  | Some fut =>
      Done (Returns tt)
           (with_futures (<[this := mkFuture (state fut) (as_cons c)]> (futures w)) w)
  | None => Done (Undefined DanglingFuture) w
  end.

(** [contents.error = e;] and [contents.result = v;] *)
Definition assign_payload (this : nat) (c : Contents) : M unit := fun w =>
  match futures w !! this with
  | Some fut =>
      Done (Returns tt)
           (log_event (EvPayload this)
              (with_futures (<[this := mkFuture (state fut) c]> (futures w)) w))
  | None => Done (Undefined DanglingFuture) w
  end.

(** The declaration of a local [fcontext_t] (or of a [FContextCons], which
    holds one): a fresh slot. *)
Definition declared (w : World) : World :=
  mkWorld (scheduler w) (futures w) (next_future w) (S (next_context w))
          (stacks w) (next_stack w) (cerr w) (history w) (user w).

Definition new_context : M fcontext_t := fun w =>
  Done (Returns (next_context w)) (declared w).

(** [new Future<R, E>] on this scheduler: the constructor of [FutureBase] sets
    [state(State::UNRESOLVED)] and [Contents()] sets [cons(nullptr)]. *)
Definition new_Future : M nat := fun w =>
  Done (Returns (next_future w))
       (mkWorld (scheduler w)
                (<[next_future w := mkFuture UNRESOLVED (as_cons nullptr)]> (futures w))
                (S (next_future w)) (next_context w)
                (stacks w) (next_stack w) (cerr w) (history w) (user w)).

(** [stackAllocate(sc, contextSize)] and [stackDeallocate(sc)] with the
    bound allocator. *)
Definition stackAllocate : M stack_context := fun w =>
  let sc := mkStack (next_stack w) (contextSize (scheduler w)) in
  Done (Returns sc)
       (mkWorld (scheduler w) (futures w) (next_future w) (next_context w)
                (sc :: stacks w) (S (next_stack w)) (cerr w) (history w) (user w)).

Definition released (sc : stack_context) (w : World) : World :=
  mkWorld (scheduler w) (futures w) (next_future w) (next_context w)
          (filter (fun s => sp s ≠ sp sc) (stacks w))
          (next_stack w) (cerr w) (history w) (user w).

Definition stackDeallocate (sc : stack_context) : M unit := fun w =>
  Done (Returns tt) (released sc w).

(** [boost::context::jump_fcontext(&save, to, ...)]. *)
Definition jump_fcontext (save : fcontext_t) (to : Target) : M unit :=
  fun w => Yield save to w (fun w' => Done (Returns tt) w').

(** [std::cerr << msg]. *)
Definition cerr_write (msg : string) : M unit := fun w =>
  Done (Returns tt) (with_cerr (cerr w ++ [msg]) w).

(** ** Scheduler *)

(** The three callables the scheduler is given: the callback of the
    resolution loop, and the function objects handed to the two overloads of
    [spawn], by index. *)
Variable innerCallback : M unit.
Variable call_value : nat -> M ValueType.
Variable call_void : nat -> M unit.

(** [Scheduler::notifyReady]: the loop over the cells. *)
Fixpoint notifyReady_walk (c : FContextCons) (w : World) : World :=
  match c with
  | nullptr => w
  | Cons context nextPointer =>
      notifyReady_walk nextPointer
        (with_ready (ready (scheduler w) ++ [context]) w)
  end.

Definition notifyReady (c : FContextCons) : M unit :=
  noexcept (fun w =>
    Done (Returns tt) (notifyReady_walk c (log_event (EvNotifyReady c) w))).

(** [Scheduler::waitUntilReady].  The flag [preserveFPRegisters] is only
    handed on to [jump_fcontext]. *)
Definition waitUntilReady (context : fcontext_t) : M unit :=
  sc <- stackAllocate ;;
  jump_fcontext context (Entry sc) ;;
  stackDeallocate sc.

(** ** FutureBase *)

(** [FutureBase::complete]. *)
Definition complete_body (this : nat) : M unit :=
  fut <- deref this ;;
  if negb (State_eqb (state fut) UNRESOLVED)
  then throw FutureAlreadyFulfilledPtr          (* [throw new FutureAlreadyFulfilled] *)
  else
    match contents fut with
    | as_cons nullptr => ret tt
    | as_cons c => notifyReady c
    | _ => undefined InactiveMember
    end.

Definition complete (this : nat) : M unit :=
  throw_spec is_FutureAlreadyFulfilled (complete_body this).

(** [FutureBase::setError]. *)
Definition setError (this : nat) (newError : ErrorType) : M unit :=
  throw_spec is_FutureAlreadyFulfilled
    (complete this ;;
     assign_state this FAILURE ;;
     assign_payload this (as_error newError)).

(** [FutureBase::setUnexpected]. *)
Definition setUnexpected (this : nat) : M unit :=
  throw_spec is_FutureAlreadyFulfilled
    (complete this ;;
     assign_state this UNEXPECTED).

(** ** Future<ValueType, ErrorType> *)

(** [Future::setResult]. *)
Definition setResult (this : nat) (newResult : ValueType) : M unit :=
  throw_spec is_FutureAlreadyFulfilled
    (complete this ;;
     assign_state this SUCCESS ;;
     assign_payload this (as_result newResult)).

(** [Future::await].  [fuel] bounds the number of times the call re-enters
    itself after a resumption. *)
Fixpoint await (fuel : nat) (this : nat) : M ValueType :=
  throw_spec is_ErrorType
    (fut <- deref this ;;
     match state fut with
     | SUCCESS =>
         match contents fut with
         | as_result v => ret v
         | _ => undefined InactiveMember
         end
     | FAILURE =>
         match contents fut with
         | as_error e => throw (Error e)
         | _ => undefined InactiveMember
         end
     | UNEXPECTED => std_unexpected
     | UNRESOLVED =>
         match fuel with
         | O => fun w => Done OutOfFuel w
         | S fuel' =>
             match contents fut with
             | as_cons c =>
                 node <- new_context ;;                  (* [FContextCons cons;] *)
                 assign_cons this (Cons node c) ;;       (* link at the head *)
                 waitUntilReady node ;;
                 await fuel' this
             | _ => undefined InactiveMember
             end
         end
     end).

(** ** Future<void, ErrorType> *)

(** [Future<void, ErrorType>::setResult]. *)
Definition setResult_void (this : nat) : M unit :=
  throw_spec is_FutureAlreadyFulfilled
    (complete this ;;
     assign_state this SUCCESS).

(** [Future<void, ErrorType>::await]. *)
Fixpoint await_void (fuel : nat) (this : nat) : M unit :=
  throw_spec is_ErrorType
    (fut <- deref this ;;
     match state fut with
     | SUCCESS => ret tt
     | FAILURE =>
         match contents fut with
         | as_error e => throw (Error e)
         | _ => undefined InactiveMember
         end
     | UNEXPECTED => std_unexpected
     | UNRESOLVED =>
         match fuel with
         | O => fun w => Done OutOfFuel w
         | S fuel' =>
             match contents fut with
             | as_cons c =>
                 node <- new_context ;;
                 assign_cons this (Cons node c) ;;
                 waitUntilReady node ;;
                 await_void fuel' this
             | _ => undefined InactiveMember
             end
         end
     end).

(** ** spawn and the resolution loop *)

(** The handlers of the lambdas of [spawn], in their order. *)
Definition spawn_handlers (fut : nat) (x : exn) : M unit :=
  match x with
  | FutureAlreadyFulfilled => throw FutureAlreadyFulfilled   (* [throw faf;] *)
  | Error e => setError fut e
  | _ => setUnexpected fut
  end.

(** The call [task()] of a closure. *)
Definition run_task (task : Task) : M unit :=
  match task with
  | TaskValue fut call =>
      try_catch (v <- call_value call ;; setResult fut v) (spawn_handlers fut)
  | TaskVoid fut call =>
      try_catch (call_void call ;; setResult_void fut) (spawn_handlers fut)
  end.

Definition push_task (task : Task) : M unit := fun w =>
  Done (Returns tt)
       (log_event (EvSpawn task) (with_tasks (tasks (scheduler w) ++ [task]) w)).

(** [Scheduler::spawn], the overload for a result type other than [void]. *)
Definition spawn (call : nat) : M nat :=
  noexcept
    (fut <- new_Future ;;
     push_task (TaskValue fut call) ;;
     ret fut).

(** [Scheduler::spawn], the overload for [void]. *)
Definition spawn_void (call : nat) : M nat :=
  noexcept
    (fut <- new_Future ;;
     push_task (TaskVoid fut call) ;;
     ret fut).

(** The world in which an iteration of the loop calls [task()]: [task] was
    at the front of the task queue and is off it, [rest] is left. *)
Definition started (task : Task) (rest : list Task) (w : World) : World :=
  log_event (EvRun task) (with_tasks rest w).

(** The [while] of [Scheduler::loop]; [fuel] bounds its iterations. *)
Fixpoint poll (fuel : nat) : M unit := fun w =>
  match ready (scheduler w) with
  | _ :: _ => Done (Returns tt) w
  | [] =>
      match fuel with
      | O => Done OutOfFuel w
      | S fuel' =>
          match tasks (scheduler w) with
          | task :: rest =>
              res_bind (run_task task (started task rest w)) (fun _ => poll fuel')
          | [] =>
              res_bind (innerCallback w) (fun _ => poll fuel')
          end
      end
  end.

(** The text the handler of [Scheduler::loop] writes: two adjacent literals,
    the second of which ends in a newline. *)
Definition diagnostic : string :=
  String.append "A Future was fulfilled a second time within a "
    (String.append "Scheduler loop. This is non-recoverable."
       (String "010"%char EmptyString)).

(** The handler of [Scheduler::loop]. *)
Definition loop_handler (x : exn) : M unit :=
  match x with
  | FutureAlreadyFulfilled => cerr_write diagnostic ;; std_terminate
  | _ => throw x
  end.

(** The three statements after the [try] block. *)
Definition loop_exit (junkContext : fcontext_t) : M unit := fun w =>
  match ready (scheduler w) with
  | [] => Done (Undefined FrontOfEmptyDeque) w
  | exitContext :: rest =>
      jump_fcontext junkContext (Resume exitContext) (with_ready rest w)
  end.

(** [Scheduler::loop]. *)
Definition loop (fuel : nat) : M unit :=
  noexcept
    (junkContext <- new_context ;;
     try_catch (poll fuel) loop_handler ;;
     loop_exit junkContext).

(** ** Contexts

    What the jumps do to the process as a whole: [saved] holds the
    continuation of every suspended context under the slot it was saved into;
    a jump to [Entry] starts [loopEntry], which calls [loop]; a jump to a
    saved context runs its continuation in the current world.  [steps] bounds
    the number of jumps.

    The machine does not follow on which stack a context is suspended, nor
    where the cells of the waiting contexts are stored (in the frames of
    [await]): it is the process for the runs in which no context is resumed,
    and no cell read, after [stackDeallocate] has released the stack it is
    on.  Where a waiter is resumed while a context suspended later on the
    stack of its loop still waits, the code goes on in released memory; the
    machine says nothing about such runs. *)
Fixpoint run (steps fuel : nat) (saved : gmap fcontext_t (World -> Res unit))
    (r : Res unit) : Outcome unit * World :=
  match r with
  | Done o w => (o, w)
  | Yield save to w k =>
      match steps with
      | O => (OutOfFuel, w)
      | S steps' =>
          match to with
          | Entry _ => run steps' fuel (<[save := k]> saved) (loop fuel w)
          | Resume c =>
              match <[save := k]> saved !! c with
              | Some k' => run steps' fuel (<[save := k]> saved) (k' w)
              | None => (Undefined DanglingContext, w)
              end
          end
      end
  end.

(** ** Notions used in the statements *)

(** [finishes r o w]: the call [r] ends with outcome [o] in world [w], after
    having been suspended and resumed (in whatever worlds) finitely often. *)
Inductive finishes {A} : Res A -> Outcome A -> World -> Prop :=
| finishes_done o w : finishes (Done o w) o w
| finishes_resumed save to w k w' o w'' :
    finishes (k w') o w'' -> finishes (Yield save to w k) o w''.

(** The world a completion method leaves: the contexts of the cells [c] are
    behind the ready queue, the Future at [this] is [fut], and [events] were
    appended to the history. *)
Definition completed (this : nat) (c : FContextCons) (fut : FutureBase)
    (events : list Event) (w : World) : World :=
  mkWorld (mkScheduler (ready (scheduler w) ++ contexts c)
                       (contextSize (scheduler w)) (tasks (scheduler w)))
          (<[this := fut]> (futures w)) (next_future w) (next_context w)
          (stacks w) (next_stack w) (cerr w) (history w ++ events) (user w).

(** The event of the call of [notifyReady] in [complete]: none for an empty
    list. *)
Definition notify_events (c : FContextCons) : list Event :=
  match c with
  | nullptr => []
  | Cons _ _ => [EvNotifyReady c]
  end.


(** The Future a closure of [spawn] captured. *)
Definition fut_of (task : Task) : nat :=
  match task with
  | TaskValue fut _ | TaskVoid fut _ => fut
  end.

(** The function object that the closure [task] captured, called in [w],
    returns in world [w1]: the value [v] in the first overload, nothing in
    the second. *)
Definition call_returns (task : Task) (v : option ValueType) (w w1 : World) : Prop :=
  match task, v with
  | TaskValue _ call, Some v => finishes (call_value call w) (Returns v) w1
  | TaskVoid _ call, None => finishes (call_void call w) (Returns tt) w1
  | _, _ => False
  end.

(** It throws [x] in world [w1]. *)
Definition call_raises (task : Task) (x : exn) (w w1 : World) : Prop :=
  match task with
  | TaskValue _ call => finishes (call_value call w) (Throws x) w1
  | TaskVoid _ call => finishes (call_void call w) (Throws x) w1
  end.

(** The world [spawn] leaves: a fresh unresolved Future at [next_future w] and
    [task] at the back of the task queue. *)
Definition spawned (task : Task) (w : World) : World :=
  mkWorld (mkScheduler (ready (scheduler w)) (contextSize (scheduler w))
                       (tasks (scheduler w) ++ [task]))
          (<[next_future w := mkFuture UNRESOLVED (as_cons nullptr)]> (futures w))
          (S (next_future w)) (next_context w) (stacks w) (next_stack w)
          (cerr w) (history w ++ [EvSpawn task]) (user w).

(** The completion methods of the two Future classes, as one call. *)
Inductive Completion : Type :=
| BySetResult (v : ValueType)            (* [Future::setResult(v)] *)
| BySetResultVoid                        (* [Future<void, E>::setResult()] *)
| BySetError (e : ErrorType)             (* [FutureBase::setError(e)] *)
| BySetUnexpected.                       (* [FutureBase::setUnexpected()] *)

Definition complete_by (op : Completion) (this : nat) : M unit :=
  match op with
  | BySetResult v => setResult this v
  | BySetResultVoid => setResult_void this
  | BySetError e => setError this e
  | BySetUnexpected => setUnexpected this
  end.

(** The call of [setResult] in the closure of the first and of the second
    overload of [spawn]. *)
Definition success_of (v : option ValueType) : Completion :=
  match v with
  | Some v => BySetResult v
  | None => BySetResultVoid
  end.

(** The Future a completion leaves, when the cells [c] were waiting, and the
    events of its two assignments. *)
Definition fulfilled (op : Completion) (c : FContextCons) : FutureBase :=
  match op with
  | BySetResult v => mkFuture SUCCESS (as_result v)
  | BySetResultVoid => mkFuture SUCCESS (as_cons c)
  | BySetError e => mkFuture FAILURE (as_error e)
  | BySetUnexpected => mkFuture UNEXPECTED (as_cons c)
  end.

Definition assignment_events (op : Completion) (this : nat) : list Event :=
  match op with
  | BySetResult _ => [EvState this SUCCESS; EvPayload this]
  | BySetResultVoid => [EvState this SUCCESS]
  | BySetError _ => [EvState this FAILURE; EvPayload this]
  | BySetUnexpected => [EvState this UNEXPECTED]
  end.

(** In the events [h], is every entry into [notifyReady] preceded by a write
    to the state of the Future at [this]?  [seen] tells whether such a write
    came before [h]. *)
Fixpoint notify_after_transition (this : nat) (seen : bool) (h : list Event) : bool :=
  match h with
  | [] => true
  | EvNotifyReady _ :: h' => seen && notify_after_transition this seen h'
  | EvState t _ :: h' => notify_after_transition this (seen || Nat.eqb t this) h'
  | _ :: h' => notify_after_transition this seen h'
  end.

(** The tasks that [spawn] pushed and the tasks that the resolution loop
    called, in the order of these events. *)
Fixpoint spawned_tasks (h : list Event) : list Task :=
  match h with
  | [] => []
  | EvSpawn task :: h' => task :: spawned_tasks h'
  | _ :: h' => spawned_tasks h'
  end.

Fixpoint started_tasks (h : list Event) : list Task :=
  match h with
  | [] => []
  | EvRun task :: h' => task :: started_tasks h'
  | _ :: h' => started_tasks h'
  end.

(** The task queue is first in, first out: the tasks called so far are, in
    the order of the calls, the first of the tasks spawned, and the queue
    holds the others in the order they were spawned. *)
Definition fifo (w : World) : Prop :=
  spawned_tasks (history w) = started_tasks (history w) ++ tasks (scheduler w).

(** [along P r]: [P] holds wherever the call [r] jumps away and where it
    ends, provided it holds wherever the call is resumed. *)
Fixpoint along {A} (P : World -> Prop) (r : Res A) : Prop :=
  match r with
  | Done _ w => P w
  | Yield _ _ w k => P w /\ forall w', P w' -> along P (k w')
  end.

(** The world in which [await] on an unresolved Future with the cells [c]
    jumps away: its cell, with the fresh context [next_context w], is the head
    of the list and the stack of the resolution loop is allocated. *)
Definition suspended (this : nat) (c : FContextCons) (w : World) : World :=
  mkWorld (scheduler w)
          (<[this := mkFuture UNRESOLVED (as_cons (Cons (next_context w) c))]> (futures w))
          (next_future w) (S (next_context w))
          (mkStack (next_stack w) (contextSize (scheduler w)) :: stacks w)
          (S (next_stack w)) (cerr w) (history w) (user w).

(** Where a call that is suspended at its first jump saved itself, where it
    jumped to, and in which world. *)
Definition first_jump {A} (r : Res A) : option (fcontext_t * Target * World) :=
  match r with
  | Done _ _ => None
  | Yield save to w _ => Some (save, to, w)
  end.




(** ** The conversion operator and the destructors *)

(** [Future::operator ValueType()]: [return await();] under an exception
    specification of its own. *)
Definition to_ValueType (fuel : nat) (this : nat) : M ValueType :=
  throw_spec is_ErrorType (await fuel this).

(** The member of the union whose destructor a destructor of a Future
    calls. *)
Inductive Destroyed : Type :=
| DestroyedResult (v : ValueType)        (* [contents.result.~ValueType()] *)
| DestroyedError (e : ErrorType).        (* [contents.error.~ErrorType()] *)

(** [Future::~Future]; the result tells which destructor call it made, if
    any.  The [switch] has no [default]. *)
Definition Future_destructor (this : nat) : M (option Destroyed) :=
  fut <- deref this ;;
  match state fut with
  | SUCCESS =>
      match contents fut with
      | as_result v => ret (Some (DestroyedResult v))
      | _ => undefined InactiveMember
      end
  | FAILURE =>
      match contents fut with
      | as_error e => ret (Some (DestroyedError e))
      | _ => undefined InactiveMember
      end
  | _ => ret None
  end.

(** [Future<void, ErrorType>::~Future]. *)
Definition Future_void_destructor (this : nat) : M (option Destroyed) :=
  fut <- deref this ;;
  match state fut with
  | FAILURE =>
      match contents fut with
      | as_error e => ret (Some (DestroyedError e))
      | _ => undefined InactiveMember
      end
  | _ => ret None
  end.

(** The storage of the object is given back; [Contents::~Contents] is
    empty. *)
Definition deallocate (this : nat) : M unit := fun w =>
  Done (Returns tt) (with_futures (delete this (futures w)) w).

(** What the [std::unique_ptr] that [spawn] returned does when it goes out of
    scope: [delete] of the Future, of the one class and of the other. *)
Definition delete_Future (this : nat) : M (option Destroyed) :=
  d <- Future_destructor this ;;
  deallocate this ;;
  ret d.

Definition delete_Future_void (this : nat) : M (option Destroyed) :=
  d <- Future_void_destructor this ;;
  deallocate this ;;
  ret d.

(** ** Notions used in the further statements *)

(** The outcomes of a call that a caller can observe as an exception. *)
Definition is_Throws {A} (o : Outcome A) : bool :=
  match o with Throws _ => true | _ => false end.

(** A call of [await] on the Future at [this] ended with [o] in world [w] as
    the Future tells: it returned with the state SUCCESS ([result] relates
    the value returned to the payload), threw the stored error with FAILURE,
    called [std::unexpected()] with UNEXPECTED, or left defined behaviour on a
    Future that is gone or whose state does not fit its payload. *)
Definition ends_as_stored {A} (result : A -> Contents -> Prop) (this : nat)
    (o : Outcome A) (w : World) : Prop :=
  match o with
  | Returns a => exists p, futures w !! this = Some (mkFuture SUCCESS p) /\ result a p
  | Throws x =>
      exists e, x = Error e /\ futures w !! this = Some (mkFuture FAILURE (as_error e))
  | CallsUnexpected => exists p, futures w !! this = Some (mkFuture UNEXPECTED p)
  | CallsTerminate => False
  | Undefined u =>
      (u = DanglingFuture /\ futures w !! this = None) \/
      (u = InactiveMember /\ is_Some (futures w !! this))
  | OutOfFuel => exists p, futures w !! this = Some (mkFuture UNRESOLVED p)
  end.

(** The completion method that a closure of the first overload of [spawn]
    calls when its function object ended with [o], if it calls one; and the
    same for the overload for [void]. *)
Definition stores (o : Outcome ValueType) : option Completion :=
  match o with
  | Returns v => Some (BySetResult v)
  | Throws FutureAlreadyFulfilled => None
  | Throws (Error e) => Some (BySetError e)
  | Throws _ => Some BySetUnexpected
  | _ => None
  end.

Definition stores_void (o : Outcome unit) : option Completion :=
  match o with
  | Returns _ => Some BySetResultVoid
  | Throws FutureAlreadyFulfilled => None
  | Throws (Error e) => Some (BySetError e)
  | Throws _ => Some BySetUnexpected
  | _ => None
  end.

(** How [Future::await] and [Future<void, ErrorType>::await] end on a Future
    that was completed by [op]. *)
Definition awaited (op : Completion) : Outcome ValueType :=
  match op with
  | BySetResult v => Returns v
  | BySetResultVoid => Undefined InactiveMember
  | BySetError e => Throws (Error e)
  | BySetUnexpected => CallsUnexpected
  end.

Definition awaited_void (op : Completion) : Outcome unit :=
  match op with
  | BySetResult _ | BySetResultVoid => Returns tt
  | BySetError e => Throws (Error e)
  | BySetUnexpected => CallsUnexpected
  end.

(** The Future at [this] holds [fut] and its address is not one that [new]
    hands out again. *)
Definition holds (this : nat) (fut : FutureBase) (w : World) : Prop :=
  futures w !! this = Some fut /\ this < next_future w.

(** A completion method changed nothing but the Future at [this], the ready
    queue, to which it appended [extra], and the history. *)
Definition only_completed (this : nat) (extra : list fcontext_t) (w w' : World) : Prop :=
  ready (scheduler w') = ready (scheduler w) ++ extra /\
  tasks (scheduler w') = tasks (scheduler w) /\
  contextSize (scheduler w') = contextSize (scheduler w) /\
  (forall other, other ≠ this -> futures w' !! other = futures w !! other) /\
  next_future w' = next_future w /\
  next_context w' = next_context w /\
  stacks w' = stacks w /\
  next_stack w' = next_stack w /\
  cerr w' = cerr w /\
  user w' = user w.

(** Every stack that is allocated was handed out by the allocator before. *)
Definition stacks_fresh (w : World) : Prop :=
  Forall (fun s => sp s < next_stack w) (stacks w).

(** The callback of the loop as a function on worlds, called [n] times. *)
Fixpoint ticks (tick : World -> World) (n : nat) (w : World) : World :=
  match n with
  | O => w
  | S n' => ticks tick n' (tick w)
  end.

End CoopFuture.

Arguments Throws {ErrorType A} x.
Arguments CallsUnexpected {ErrorType A}.
Arguments CallsTerminate {ErrorType A}.
Arguments Undefined {ErrorType A} u.
Arguments OutOfFuel {ErrorType A}.
Arguments DestroyedResult {ValueType ErrorType} v.
Arguments DestroyedError {ValueType ErrorType} e.

Notation "x <- m ;; k" := (bind m (fun x => k))
  (at level 100, m at next level, right associativity).
Notation "m ;; k" := (bind m (fun _ => k))
  (at level 100, right associativity).

(** * A concrete program

    [Future<unsigned, unsigned>] and [Future<void, unsigned>]: values and
    errors are numbers, and the state of the user's code is a log of
    numbers. *)

Module Scenario.

Abbreviation World := (@World nat nat (list nat)).
Abbreviation M := (@M nat nat (list nat)).

(** A scheduler just constructed, no Future. *)
Definition start : World :=
  mkWorld (mkScheduler [] 4096 []) ∅ 0 0 [] 0 [] [] [].

(** A Future constructed by hand, at address 0. *)
Definition one_future : World :=
  mkWorld (mkScheduler [] 4096 [])
          {[ 0 := mkFuture UNRESOLVED (as_cons nullptr) ]} 1 0 [] 0 [] [] [].

(** The same Future after the contexts 5 and then 6 were suspended on it. *)
Definition two_waiting : World :=
  mkWorld (mkScheduler [] 4096 [])
          {[ 0 := mkFuture UNRESOLVED (as_cons (Cons 6 (Cons 5 nullptr))) ]}
          1 7 [] 0 [] [] [].

(** The Future at address 0 with the closure of a spawned function object,
    the one of index 2, in the task queue. *)
Definition one_task : World :=
  mkWorld (mkScheduler [] 4096 [TaskValue 0 2])
          {[ 0 := mkFuture UNRESOLVED (as_cons nullptr) ]} 1 0 [] 0 [] [] [].

(** The Future at address 0 after one and after two callers entered [await]
    on it and were suspended. *)
Definition one_suspended : World := suspended 0 nullptr one_future.


(** The world after [spawn] of the function object of index 0. *)
Definition one_spawned : World := spawned (TaskValue 0 0) start.

(** The world after a [spawn] of either overload. *)
Definition two_spawned : World := spawned (TaskVoid 1 0) one_spawned.

(** User code that appends [n] to the log. *)
Definition note (n : nat) : M unit := fun w =>
  Done (Returns tt)
       (mkWorld (scheduler w) (futures w) (next_future w) (next_context w)
                (stacks w) (next_stack w) (cerr w) (history w) (user w ++ [n])).

(** Callbacks of the resolution loop: one that does nothing, one that throws
    a foreign exception, and one that completes the Future at address 0 when
    it is called for the third time. *)
Definition idle : M unit := ret tt.

Definition failing : M unit := throw (Other 0).

Definition third_tick : M unit := fun w =>
  if Nat.eqb (length (user w)) 2
  then (note 0 ;; setResult 0 9) w
  else note 0 w.

(** A callback that completes the Future at address 0 if it is unresolved. *)
Definition fulfil : M unit := fun w =>
  match futures w !! 0 with
  | Some fut => if State_eqb (state fut) UNRESOLVED then setResult 0 9 w else ret tt w
  | None => ret tt w
  end.

(** The function objects given to [spawn], by index.  From index 5 on a
    value function awaits the Future at address 0 and adds one; from index 4
    on an action logs its index less 4, the odd ones after awaiting the
    Future at address 0. *)
Definition values (call : nat) : M nat :=
  match call with
  | 0 => ret 42
  | 1 => throw (Error 7)
  | 2 => throw FutureAlreadyFulfilled
  | 3 => throw (Other 0)
  | 4 => ret 1
  | _ => v <- await 2 0 ;; ret (v + 1)
  end.

Definition actions (call : nat) : M unit :=
  match call with
  | 0 => ret tt
  | 1 => throw (Error 7)
  | 2 => throw FutureAlreadyFulfilled
  | 3 => throw (Other 0)
  | S (S (S (S n))) => if Nat.even n then note n else (await 2 0 ;; note n)
  end.

(** Function objects that all do the same. *)
Definition constant (call : nat) : M nat := ret 42.

Definition nothing (call : nat) : M unit := ret tt.

(** The programs of the scenarios: [main] functions that end by logging what
    they got. *)
Definition spawn_await (call : nat) : M unit :=
  f <- spawn call ;; v <- await 2 f ;; note v.

Definition cross_future : M unit :=
  f1 <- spawn 4 ;; f2 <- spawn 5 ;; v <- await 2 f2 ;; note v.

Definition three_tasks : M unit :=
  spawn_void 4 ;; spawn_void 6 ;; f <- spawn_void 8 ;; await_void 2 f.

Definition three_waiters : M unit :=
  spawn_void 5 ;; spawn_void 7 ;; f <- spawn_void 9 ;; await_void 2 f.

Definition await_external : M unit :=
  v <- await 2 0 ;; note v.

(** The overload for [void]: [main] ends as [await] does. *)
Definition spawn_await_void (call : nat) : M unit :=
  f <- spawn_void call ;; x <- await_void 2 f ;; ret x.

(** The Future at address 0 completed with 9 while the context 0 waited
    on it, and the world after [delete] of the Future when nobody waited. *)
Definition one_fulfilled : World :=
  completed 0 (Cons 0 nullptr) (mkFuture SUCCESS (as_result 9)) [] one_suspended.

Definition one_deleted : World :=
  with_futures (delete 0 (futures one_future)) one_future.

(** What a call of [m] that does not jump does to the world. *)
Definition after (m : M unit) (w : World) : World :=
  match m w with
  | Done _ w' => w'
  | Yield _ _ w' _ => w'
  end.

(** Of a run: how [main] ended, what was logged, and the two queues at the
    end. *)
Definition report (r : @Outcome nat unit * World)
  : @Outcome nat unit * list nat * list fcontext_t * list Task :=
  (fst r, user (snd r), ready (scheduler (snd r)), tasks (scheduler (snd r))).

End Scenario.

(** * Properties *)

Unset Implicit Arguments.

Section Properties.

Context {ValueType ErrorType User : Type}.

Local Abbreviation World := (@World ValueType ErrorType User).
Local Abbreviation M := (@M ValueType ErrorType User).
Local Abbreviation Res := (@Res ValueType ErrorType User).
Local Abbreviation exn := (@exn ErrorType).
Local Abbreviation Outcome := (@Outcome ErrorType).
Local Abbreviation FutureBase := (@FutureBase ValueType ErrorType).
Local Abbreviation Contents := (@Contents ValueType ErrorType).

Variable innerCallback : M unit.
Variable call_value : nat -> M ValueType.
Variable call_void : nat -> M unit.

Local Abbreviation run_task := (run_task call_value call_void).
Local Abbreviation poll := (poll innerCallback call_value call_void).
Local Abbreviation loop := (loop innerCallback call_value call_void).

(** ** The queue of ready contexts *)

Lemma notifyReady_walk_ready (c : FContextCons) (w : World) :
  notifyReady_walk c w = with_ready (ready (scheduler w) ++ contexts c) w.
Proof.
  revert w. induction c as [|ctx next IH]; intros w.
  - destruct w as [[r cs ts] fs nf nc st ns ce h u]. cbn.
    by rewrite app_nil_r.
  - cbn [notifyReady_walk contexts]. rewrite IH.
    destruct w as [[r cs ts] fs nf nc st ns ce h u]. cbn.
    by rewrite <- app_assoc.
Qed.

Lemma notifyReady_walk_futures (c : FContextCons) (w : World) :
  futures (notifyReady_walk c w) = futures w.
Proof. by rewrite notifyReady_walk_ready. Qed.

(** ** The completion methods *)

Lemma State_eqb_UNRESOLVED (s : State) :
  s ≠ UNRESOLVED -> negb (State_eqb s UNRESOLVED) = true.
Proof. by destruct s. Qed.

(** [complete] on an unresolved Future hands the cells to [notifyReady] and
    leaves the Future as it is. *)
Lemma complete_unresolved (this : nat) (c : FContextCons) (w : World) :
  futures w !! this = Some (mkFuture UNRESOLVED (as_cons c)) ->
  complete this w
  = Done (Returns tt)
         (completed this c (mkFuture UNRESOLVED (as_cons c)) (notify_events c) w).
Proof.
  intros Hf. unfold complete, throw_spec, complete_body, bind, deref.
  rewrite Hf. cbn.
  assert (Hid : <[this := mkFuture UNRESOLVED (as_cons c)]> (futures w) = futures w)
    by by apply insert_id.
  destruct c as [|ctx next].
  - cbn. f_equal. unfold completed. rewrite Hid.
    destruct w as [[r cs ts] fs nf nc st ns ce h u]. cbn.
    by rewrite !app_nil_r.
  - cbn [notifyReady noexcept res_noexcept res_throw_spec].
    f_equal. rewrite notifyReady_walk_ready. unfold completed. rewrite Hid.
    by destruct w as [[r cs ts] fs nf nc st ns ce h u].
Qed.

(** On a Future that is not unresolved, the [throw] in [complete] is reached:
    it throws a pointer, which the exception specification of [complete] does
    not allow. *)
Lemma complete_body_fulfilled (this : nat) (fut : FutureBase) (w : World) :
  futures w !! this = Some fut -> state fut ≠ UNRESOLVED ->
  complete_body this w = Done (Throws FutureAlreadyFulfilledPtr) w.
Proof.
  intros Hf Hs. unfold complete_body, bind, deref. rewrite Hf. cbn.
  by rewrite State_eqb_UNRESOLVED.
Qed.

Lemma complete_fulfilled (this : nat) (fut : FutureBase) (w : World) :
  futures w !! this = Some fut -> state fut ≠ UNRESOLVED ->
  complete this w = Done CallsUnexpected w.
Proof.
  intros Hf Hs. unfold complete, throw_spec.
  by rewrite (complete_body_fulfilled _ _ _ Hf Hs).
Qed.

(** A completion method called on a Future that is not unresolved changes
    nothing and does not return: [std::unexpected()] is called. *)
Lemma completion_fulfilled (this : nat) (fut : FutureBase) (w : World) :
  futures w !! this = Some fut -> state fut ≠ UNRESOLVED ->
  (forall v, setResult this v w = Done CallsUnexpected w) /\
  (forall e, setError this e w = Done CallsUnexpected w) /\
  setUnexpected this w = Done CallsUnexpected w /\
  setResult_void this w = Done CallsUnexpected w.
Proof.
  intros Hf Hs.
  unfold setResult, setError, setUnexpected, setResult_void, throw_spec, bind.
  rewrite (complete_fulfilled _ _ _ Hf Hs). by cbn.
Qed.

Lemma completed_lookup (this : nat) (c : FContextCons) (fut : FutureBase)
    (events : list Event) (w : World) :
  futures (completed this c fut events w) !! this = Some fut.
Proof. cbn. apply lookup_insert_eq. Qed.

Lemma assign_state_completed (this : nat) (c : FContextCons) (fut : FutureBase)
    (events : list Event) (s : State) (w : World) :
  assign_state this s (completed this c fut events w)
  = Done (Returns tt)
         (completed this c (mkFuture s (contents fut)) (events ++ [EvState this s]) w).
Proof.
  unfold assign_state. rewrite completed_lookup. f_equal.
  unfold completed, log_event, with_history, with_futures. cbn.
  by rewrite insert_insert_eq, app_assoc.
Qed.

Lemma assign_payload_completed (this : nat) (c : FContextCons) (fut : FutureBase)
    (events : list Event) (p : Contents) (w : World) :
  assign_payload this p (completed this c fut events w)
  = Done (Returns tt)
         (completed this c (mkFuture (state fut) p) (events ++ [EvPayload this]) w).
Proof.
  unfold assign_payload. rewrite completed_lookup. f_equal.
  unfold completed, log_event, with_history, with_futures. cbn.
  by rewrite insert_insert_eq, app_assoc.
Qed.

(** What the four completion methods do to an unresolved Future. *)
Lemma setResult_unresolved (this : nat) (c : FContextCons) (v : ValueType) (w : World) :
  futures w !! this = Some (mkFuture UNRESOLVED (as_cons c)) ->
  setResult this v w
  = Done (Returns tt)
         (completed this c (mkFuture SUCCESS (as_result v))
            (notify_events c ++ [EvState this SUCCESS; EvPayload this]) w).
Proof.
  intros Hf. unfold setResult, throw_spec, bind.
  rewrite (complete_unresolved _ _ _ Hf). cbn [res_bind].
  rewrite assign_state_completed. cbn [res_bind].
  rewrite assign_payload_completed. cbn.
  by rewrite <- app_assoc.
Qed.

Lemma setError_unresolved (this : nat) (c : FContextCons) (e : ErrorType) (w : World) :
  futures w !! this = Some (mkFuture UNRESOLVED (as_cons c)) ->
  setError this e w
  = Done (Returns tt)
         (completed this c (mkFuture FAILURE (as_error e))
            (notify_events c ++ [EvState this FAILURE; EvPayload this]) w).
Proof.
  intros Hf. unfold setError, throw_spec, bind.
  rewrite (complete_unresolved _ _ _ Hf). cbn [res_bind].
  rewrite assign_state_completed. cbn [res_bind].
  rewrite assign_payload_completed. cbn.
  by rewrite <- app_assoc.
Qed.

Lemma setUnexpected_unresolved (this : nat) (c : FContextCons) (w : World) :
  futures w !! this = Some (mkFuture UNRESOLVED (as_cons c)) ->
  setUnexpected this w
  = Done (Returns tt)
         (completed this c (mkFuture UNEXPECTED (as_cons c))
            (notify_events c ++ [EvState this UNEXPECTED]) w).
Proof.
  intros Hf. unfold setUnexpected, throw_spec, bind.
  rewrite (complete_unresolved _ _ _ Hf). cbn [res_bind].
  by rewrite assign_state_completed.
Qed.

Lemma setResult_void_unresolved (this : nat) (c : FContextCons) (w : World) :
  futures w !! this = Some (mkFuture UNRESOLVED (as_cons c)) ->
  setResult_void this w
  = Done (Returns tt)
         (completed this c (mkFuture SUCCESS (as_cons c))
            (notify_events c ++ [EvState this SUCCESS]) w).
Proof.
  intros Hf. unfold setResult_void, throw_spec, bind.
  rewrite (complete_unresolved _ _ _ Hf). cbn [res_bind].
  by rewrite assign_state_completed.
Qed.

Lemma complete_by_unresolved (op : @Completion ValueType ErrorType) (this : nat)
    (c : FContextCons) (w : World) :
  futures w !! this = Some (mkFuture UNRESOLVED (as_cons c)) ->
  complete_by op this w
  = Done (Returns tt)
         (completed this c (fulfilled op c)
            (notify_events c ++ assignment_events op this) w).
Proof.
  intros Hf. destruct op; cbn [complete_by fulfilled assignment_events].
  - by apply setResult_unresolved.
  - by apply setResult_void_unresolved.
  - by apply setError_unresolved.
  - by apply setUnexpected_unresolved.
Qed.

Lemma complete_by_fulfilled (op : @Completion ValueType ErrorType) (this : nat)
    (fut : FutureBase) (w : World) :
  futures w !! this = Some fut -> state fut ≠ UNRESOLVED ->
  complete_by op this w = Done CallsUnexpected w.
Proof.
  intros Hf Hs.
  destruct (completion_fulfilled this fut w Hf Hs) as (H1 & H2 & H3 & H4).
  destruct op; cbn [complete_by]; auto.
Qed.

(** ** Calls that are suspended and resumed *)

Lemma finishes_bind_returns {A B} (r : Res A) (f : A -> M B) a w1 o w :
  finishes r (Returns a) w1 -> finishes (f a w1) o w ->
  finishes (res_bind r f) o w.
Proof.
  intros Hr. remember (Returns a) as oa eqn:Ho.
  induction Hr as [o1 w0|save to w0 k w' o1 w'' _ IH]; intros Hf; subst.
  - exact Hf.
  - cbn. econstructor. by apply IH.
Qed.

Lemma finishes_Done_inv {A} (o1 : Outcome A) (w1 : World) o w :
  finishes (Done o1 w1) o w -> o = o1 /\ w = w1.
Proof. by inversion 1. Qed.

Lemma finishes_Yield_inv {A} save to (w0 : World) (k : World -> Res A) o w :
  finishes (Yield save to w0 k) o w -> exists w', finishes (k w') o w.
Proof. inversion 1; subst. by eexists. Qed.

Lemma finishes_bind_abrupt {A B} (r : Res A) (f : A -> M B) o w :
  finishes r o w -> (forall a, o ≠ Returns a) ->
  finishes (res_bind r f) (abrupt o) w.
Proof.
  intros Hr Hn.
  induction Hr as [o1 w0|save to w0 k w' o1 w'' _ IH].
  - destruct o1; first (by destruct (Hn a)); constructor.
  - cbn. econstructor. by apply IH.
Qed.

Lemma finishes_bind_inv {A B} (r : Res A) (f : A -> M B) o w :
  finishes (res_bind r f) o w ->
  (exists a w1, finishes r (Returns a) w1 /\ finishes (f a w1) o w) \/
  (exists o1, finishes r o1 w /\ (forall a, o1 ≠ Returns a) /\ o = abrupt o1).
Proof.
  revert o w. induction r as [o1 w0|save to w0 k IH]; intros o w H.
  - destruct o1 as [a|x| | |u|].
    + left. exists a, w0. split; [constructor | exact H].
    + right. exists (Throws x). apply finishes_Done_inv in H as [-> ->].
      repeat split; [constructor | done].
    + right. exists CallsUnexpected. apply finishes_Done_inv in H as [-> ->].
      repeat split; [constructor | done].
    + right. exists CallsTerminate. apply finishes_Done_inv in H as [-> ->].
      repeat split; [constructor | done].
    + right. exists (Undefined u). apply finishes_Done_inv in H as [-> ->].
      repeat split; [constructor | done].
    + right. exists OutOfFuel. apply finishes_Done_inv in H as [-> ->].
      repeat split; [constructor | done].
  - cbn in H. apply finishes_Yield_inv in H as [w' Hk].
    destruct (IH w' _ _ Hk) as [(a & w1 & Hr & Hf)|(o1 & Hr & Hn & ->)].
    + left. exists a, w1. split; [econstructor; exact Hr | exact Hf].
    + right. exists o1. repeat split; [econstructor; exact Hr | exact Hn].
Qed.

Lemma finishes_catch_throws {A} (r : Res A) (h : exn -> M A) x w1 o w :
  finishes r (Throws x) w1 -> finishes (h x w1) o w ->
  finishes (res_catch r h) o w.
Proof.
  intros Hr. remember (Throws x) as ox eqn:Ho.
  induction Hr as [o1 w0|save to w0 k w' o1 w'' _ IH]; intros Hh; subst.
  - exact Hh.
  - cbn. econstructor. by apply IH.
Qed.

Lemma finishes_catch_other {A} (r : Res A) (h : exn -> M A) o w :
  finishes r o w -> (forall x, o ≠ Throws x) ->
  finishes (res_catch r h) o w.
Proof.
  intros Hr Hn.
  induction Hr as [o1 w0|save to w0 k w' o1 w'' _ IH].
  - destruct o1; try constructor. by destruct (Hn x).
  - cbn. econstructor. by apply IH.
Qed.

Lemma finishes_catch_inv {A} (r : Res A) (h : exn -> M A) o w :
  finishes (res_catch r h) o w ->
  (exists x w1, finishes r (Throws x) w1 /\ finishes (h x w1) o w) \/
  (finishes r o w /\ forall x, o ≠ Throws x).
Proof.
  revert o w. induction r as [o1 w0|save to w0 k IH]; intros o w H.
  - destruct o1 as [a|x| | |u|];
      try (right; apply finishes_Done_inv in H as [-> ->];
           split; [constructor | done]).
    left. exists x, w0. split; [constructor | exact H].
  - cbn in H. apply finishes_Yield_inv in H as [w' Hk].
    destruct (IH w' _ _ Hk) as [(x & w1 & Hr & Hh)|[Hr Hn]].
    + left. exists x, w1. split; [econstructor; exact Hr | exact Hh].
    + right. split; [econstructor; exact Hr | exact Hn].
Qed.

Lemma finishes_noexcept_throws {A} (r : Res A) x w :
  finishes r (Throws x) w -> finishes (res_noexcept r) CallsTerminate w.
Proof.
  intros Hr. remember (Throws x) as ox eqn:Ho.
  induction Hr as [o1 w0|save to w0 k w' o1 w'' _ IH]; subst.
  - constructor.
  - cbn. econstructor. by apply IH.
Qed.

Lemma finishes_noexcept_other {A} (r : Res A) o w :
  finishes r o w -> (forall x, o ≠ Throws x) ->
  finishes (res_noexcept r) o w.
Proof.
  intros Hr Hn.
  induction Hr as [o1 w0|save to w0 k w' o1 w'' _ IH].
  - destruct o1; try constructor. by destruct (Hn x).
  - cbn. econstructor. by apply IH.
Qed.

Lemma finishes_noexcept_inv {A} (r : Res A) o w :
  finishes (res_noexcept r) o w -> forall x, o ≠ Throws x.
Proof.
  revert o w. induction r as [o1 w0|save to w0 k IH]; intros o w H x.
  - destruct o1; apply finishes_Done_inv in H as [-> ->]; done.
  - cbn in H. apply finishes_Yield_inv in H as [w' Hk]. by eapply IH.
Qed.

(** ** await *)

Lemma await_success (fuel this : nat) (v : ValueType) (w : World) :
  futures w !! this = Some (mkFuture SUCCESS (as_result v)) ->
  await fuel this w = Done (Returns v) w.
Proof.
  intros Hf. destruct fuel; cbn; unfold throw_spec, bind, deref; by rewrite Hf.
Qed.

Lemma await_failure (fuel this : nat) (e : ErrorType) (w : World) :
  futures w !! this = Some (mkFuture FAILURE (as_error e)) ->
  await fuel this w = Done (Throws (Error e)) w.
Proof.
  intros Hf. destruct fuel; cbn; unfold throw_spec, bind, deref; by rewrite Hf.
Qed.

Lemma await_unexpected (fuel this : nat) (p : Contents) (w : World) :
  futures w !! this = Some (mkFuture UNEXPECTED p) ->
  await fuel this w = Done CallsUnexpected w.
Proof.
  intros Hf. destruct fuel; cbn; unfold throw_spec, bind, deref; by rewrite Hf.
Qed.

Lemma await_unresolved (fuel this : nat) (c : FContextCons) (w : World) :
  futures w !! this = Some (mkFuture UNRESOLVED (as_cons c)) ->
  exists k,
    await (S fuel) this w
    = Yield (next_context w)
            (Entry (mkStack (next_stack w) (contextSize (scheduler w))))
            (suspended this c w) k /\
    forall w',
      k w' = throw_spec is_ErrorType (await fuel this)
               (released (mkStack (next_stack w) (contextSize (scheduler w))) w').
Proof.
  intros Hf. eexists. split.
  - cbn [await]. unfold throw_spec at 1, bind at 1, deref. rewrite Hf.
    cbn [res_bind state contents].
    unfold bind at 1, new_context. cbn [res_bind].
    unfold bind at 1, assign_cons, declared. cbn [futures]. rewrite Hf. cbn [res_bind].
    unfold bind at 1, waitUntilReady, bind at 1, stackAllocate. cbn [res_bind].
    unfold bind at 1, jump_fcontext. cbn [res_bind res_throw_spec].
    reflexivity.
  - intros w'. reflexivity.
Qed.

Lemma await_void_success (fuel this : nat) (p : Contents) (w : World) :
  futures w !! this = Some (mkFuture SUCCESS p) ->
  await_void fuel this w = Done (Returns tt) w.
Proof.
  intros Hf. destruct fuel; cbn; unfold throw_spec, bind, deref; by rewrite Hf.
Qed.

Lemma await_void_failure (fuel this : nat) (e : ErrorType) (w : World) :
  futures w !! this = Some (mkFuture FAILURE (as_error e)) ->
  await_void fuel this w = Done (Throws (Error e)) w.
Proof.
  intros Hf. destruct fuel; cbn; unfold throw_spec, bind, deref; by rewrite Hf.
Qed.

Lemma await_void_unexpected (fuel this : nat) (p : Contents) (w : World) :
  futures w !! this = Some (mkFuture UNEXPECTED p) ->
  await_void fuel this w = Done CallsUnexpected w.
Proof.
  intros Hf. destruct fuel; cbn; unfold throw_spec, bind, deref; by rewrite Hf.
Qed.

Lemma await_void_unresolved (fuel this : nat) (c : FContextCons) (w : World) :
  futures w !! this = Some (mkFuture UNRESOLVED (as_cons c)) ->
  exists k,
    await_void (S fuel) this w
    = Yield (next_context w)
            (Entry (mkStack (next_stack w) (contextSize (scheduler w))))
            (suspended this c w) k /\
    forall w',
      k w' = throw_spec is_ErrorType (await_void fuel this)
               (released (mkStack (next_stack w) (contextSize (scheduler w))) w').
Proof.
  intros Hf. eexists. split.
  - cbn [await_void]. unfold throw_spec at 1, bind at 1, deref. rewrite Hf.
    cbn [res_bind state contents].
    unfold bind at 1, new_context. cbn [res_bind].
    unfold bind at 1, assign_cons, declared. cbn [futures]. rewrite Hf. cbn [res_bind].
    unfold bind at 1, waitUntilReady, bind at 1, stackAllocate. cbn [res_bind].
    unfold bind at 1, jump_fcontext. cbn [res_bind res_throw_spec].
    reflexivity.
  - intros w'. reflexivity.
Qed.

(** ** The closures of spawn *)

Lemma spawn_spawned (call : nat) (w : World) :
  spawn call w
  = Done (Returns (next_future w)) (spawned (TaskValue (next_future w) call) w) /\
  spawn_void call w
  = Done (Returns (next_future w)) (spawned (TaskVoid (next_future w) call) w).
Proof. split; reflexivity. Qed.

(** A closure whose function object returned calls [setResult]. *)
Lemma run_task_returns (task : Task) (v : option ValueType) (o : Outcome unit)
    (w w1 w2 : World) :
  call_returns call_value call_void task v w w1 ->
  complete_by (success_of v) (fut_of task) w1 = Done o w2 ->
  (forall x, o ≠ Throws x) ->
  finishes (run_task task w) o w2.
Proof.
  intros Hc Hs Hn.
  destruct task as [fut call|fut call], v as [v|]; cbn in Hc; try done;
    cbn [run_task]; unfold try_catch, bind;
    apply finishes_catch_other; try exact Hn;
    eapply finishes_bind_returns; try exact Hc;
    cbn in Hs; rewrite Hs; constructor.
Qed.

(** A closure whose function object threw runs the first handler that
    matches. *)
Lemma run_task_raises (task : Task) (x : exn) (o : Outcome unit) (w w1 w2 : World) :
  call_raises call_value call_void task x w w1 ->
  finishes (spawn_handlers (fut_of task) x w1) o w2 ->
  finishes (run_task task w) o w2.
Proof.
  intros Hc Hh.
  destruct task as [fut call|fut call]; cbn in Hc;
    cbn [run_task]; unfold try_catch, bind;
    (eapply finishes_catch_throws; [|exact Hh]);
    apply (finishes_bind_abrupt _ _ _ _ Hc); done.
Qed.

(** ** The resolution loop *)

Lemma poll_ready (fuel : nat) (w : World) :
  ready (scheduler w) ≠ [] -> poll fuel w = Done (Returns tt) w.
Proof.
  intros Hr. destruct fuel; cbn; by destruct (ready (scheduler w)).
Qed.

Lemma poll_task (fuel : nat) (task : Task) (rest : list Task) (w : World) :
  ready (scheduler w) = [] -> tasks (scheduler w) = task :: rest ->
  poll (S fuel) w = res_bind (run_task task (started task rest w)) (fun _ => poll fuel).
Proof. intros Hr Ht. cbn. by rewrite Hr, Ht. Qed.

Lemma poll_callback (fuel : nat) (w : World) :
  ready (scheduler w) = [] -> tasks (scheduler w) = [] ->
  poll (S fuel) w = res_bind (innerCallback w) (fun _ => poll fuel).
Proof. intros Hr Ht. cbn. by rewrite Hr, Ht. Qed.

Lemma abrupt_not_Returns {A B} (o : Outcome A) (b : B) : abrupt o ≠ Returns b.
Proof. by destruct o. Qed.

(** The [while] is left normally only with a context in the ready queue. *)
Lemma poll_returns (fuel : nat) (w w' : World) :
  finishes (poll fuel w) (Returns tt) w' -> ready (scheduler w') ≠ [].
Proof.
  revert w. induction fuel as [|fuel IH]; intros w H.
  - cbn in H. destruct (ready (scheduler w)) eqn:Hr.
    + by apply finishes_Done_inv in H as [? _].
    + apply finishes_Done_inv in H as [_ ->]. by rewrite Hr.
  - destruct (ready (scheduler w)) eqn:Hr.
    + assert (Hb : exists r : Res unit,
                 poll (S fuel) w = res_bind r (fun _ => poll fuel)).
      { destruct (tasks (scheduler w)) eqn:Ht.
        - eexists. by apply poll_callback.
        - eexists. by apply poll_task. }
      destruct Hb as [r Hb]. rewrite Hb in H.
      apply finishes_bind_inv in H as [(a & w1 & _ & Hp)|(o1 & _ & _ & Ho)].
      * by eapply IH.
      * symmetry in Ho. by apply abrupt_not_Returns in Ho.
    + rewrite poll_ready in H by by rewrite Hr.
      apply finishes_Done_inv in H as [_ ->]. by rewrite Hr.
Qed.

(** The handler of the loop does not return. *)
Lemma loop_handler_finishes (x : exn) (w : World) (o : Outcome unit) (w' : World) :
  finishes (loop_handler x w) o w' ->
  (x = FutureAlreadyFulfilled /\ o = CallsTerminate /\
   w' = with_cerr (cerr w ++ [diagnostic]) w) \/
  (x ≠ FutureAlreadyFulfilled /\ o = Throws x /\ w' = w).
Proof.
  intros H. destruct x; cbn in H; apply finishes_Done_inv in H as [-> ->];
    (by left) || (by right).
Qed.

(** The [try] block is left normally only with a context in the ready
    queue. *)
Lemma guarded_poll_returns (fuel : nat) (w w' : World) :
  finishes (res_catch (poll fuel w) loop_handler) (Returns tt) w' ->
  ready (scheduler w') ≠ [].
Proof.
  intros H.
  apply finishes_catch_inv in H as [(x & w1 & _ & Hh)|[Hp _]].
  - apply loop_handler_finishes in Hh as [(_ & Ho & _)|(_ & Ho & _)]; done.
  - by apply poll_returns in Hp.
Qed.

Lemma loop_unfold (fuel : nat) (w : World) :
  loop fuel w
  = res_noexcept
      (res_bind (res_catch (poll fuel (declared w)) loop_handler)
                (fun _ => loop_exit (next_context w))).
Proof. reflexivity. Qed.

Lemma loop_exit_jumps (junkContext exitContext : fcontext_t) (rest : list fcontext_t)
    (w : World) :
  ready (scheduler w) = exitContext :: rest ->
  loop_exit junkContext w
  = jump_fcontext junkContext (Resume exitContext) (with_ready rest w).
Proof. intros Hr. unfold loop_exit. by rewrite Hr. Qed.


(** ** The front of an empty queue is never taken *)

Lemma finishes_noexcept_cases {A} (r : Res A) o w :
  finishes (res_noexcept r) o w ->
  finishes r o w \/ (o = CallsTerminate /\ exists x, finishes r (Throws x) w).
Proof.
  revert o w. induction r as [o1 w0|save to w0 k IH]; intros o w H.
  - destruct o1 as [a|x| | |u|]; try (left; exact H).
    cbn in H. apply finishes_Done_inv in H as [-> ->].
    right. split; first done. exists x. constructor.
  - cbn in H. apply finishes_Yield_inv in H as [w' Hk].
    destruct (IH w' _ _ Hk) as [Hr|(-> & x & Hr)].
    + left. econstructor. exact Hr.
    + right. split; first done. exists x. econstructor. exact Hr.
Qed.

(** How a completion method can end: it never jumps. *)
Lemma complete_by_done (op : @Completion ValueType ErrorType) (this : nat) (w : World) :
  exists o w',
    complete_by op this w = Done o w' /\
    (o = Returns tt \/ o = CallsUnexpected \/
     o = Undefined DanglingFuture \/ o = Undefined InactiveMember).
Proof.
  destruct (futures w !! this) as [[st p]|] eqn:Hf.
  - destruct st;
      try (exists CallsUnexpected, w; split;
           [by apply (complete_by_fulfilled op this _ w Hf) | auto]).
    destruct p as [c|e|v].
    + eexists _, _. split; [by apply complete_by_unresolved | auto].
    + exists (Undefined InactiveMember), w. split; last auto.
      destruct op; cbn;
        unfold setResult, setResult_void, setError, setUnexpected, throw_spec,
          bind, complete, throw_spec, complete_body, bind, deref;
        by rewrite Hf.
    + exists (Undefined InactiveMember), w. split; last auto.
      destruct op; cbn;
        unfold setResult, setResult_void, setError, setUnexpected, throw_spec,
          bind, complete, throw_spec, complete_body, bind, deref;
        by rewrite Hf.
  - exists (Undefined DanglingFuture), w. split; last auto.
    destruct op; cbn;
      unfold setResult, setResult_void, setError, setUnexpected, throw_spec,
        bind, complete, throw_spec, complete_body, bind, deref;
      by rewrite Hf.
Qed.

Lemma complete_by_front (op : @Completion ValueType ErrorType) (this : nat)
    (w : World) o w' :
  finishes (complete_by op this w) o w' -> o ≠ Undefined FrontOfEmptyDeque.
Proof.
  destruct (complete_by_done op this w) as (o1 & w1 & -> & Ho).
  intros H. apply finishes_Done_inv in H as [-> _].
  destruct Ho as [-> | [-> | [-> | ->]]]; done.
Qed.

Section Front.

(** The user's code does not take the front of an empty queue itself. *)
Hypothesis innerCallback_front : forall w o w',
  finishes (innerCallback w) o w' -> o ≠ Undefined FrontOfEmptyDeque.
Hypothesis call_value_front : forall call w o w',
  finishes (call_value call w) o w' -> o ≠ Undefined FrontOfEmptyDeque.
Hypothesis call_void_front : forall call w o w',
  finishes (call_void call w) o w' -> o ≠ Undefined FrontOfEmptyDeque.

Lemma abrupt_front {A B} (o : Outcome A) :
  o ≠ Undefined FrontOfEmptyDeque ->
  @abrupt ErrorType A B o ≠ Undefined FrontOfEmptyDeque.
Proof.
  destruct o; cbn; intros H; try done.
  intros [= ->]. by apply H.
Qed.

Lemma run_task_front (task : Task) (w : World) o w' :
  finishes (run_task task w) o w' -> o ≠ Undefined FrontOfEmptyDeque.
Proof.
  intros H.
  assert (Hh : forall x (w1 : World) o1 w2,
             finishes (spawn_handlers (fut_of task) x w1) o1 w2 ->
             o1 ≠ Undefined FrontOfEmptyDeque).
  { intros x w1 o1 w2 Hx. destruct x; cbn in Hx.
    - by apply finishes_Done_inv in Hx as [-> _].
    - by apply (complete_by_front BySetUnexpected) in Hx.
    - by apply (complete_by_front (BySetError e)) in Hx.
    - by apply (complete_by_front BySetUnexpected) in Hx. }
  destruct task as [fut call|fut call]; cbn [run_task] in H;
    unfold try_catch, bind in H;
    apply finishes_catch_inv in H as [(x & w1 & _ & Hx)|[Hb _]];
    try (by eapply (Hh x)).
  - apply finishes_bind_inv in Hb as [(v & w1 & _ & Hs)|(o1 & Hc & _ & ->)].
    + by apply (complete_by_front (BySetResult v)) in Hs.
    + apply abrupt_front. by eapply call_value_front.
  - apply finishes_bind_inv in Hb as [(v & w1 & _ & Hs)|(o1 & Hc & _ & ->)].
    + by apply (complete_by_front BySetResultVoid) in Hs.
    + apply abrupt_front. by eapply call_void_front.
Qed.

Lemma poll_front (fuel : nat) (w : World) o w' :
  finishes (poll fuel w) o w' -> o ≠ Undefined FrontOfEmptyDeque.
Proof.
  revert w. induction fuel as [|fuel IH]; intros w H.
  - cbn in H. destruct (ready (scheduler w));
      by apply finishes_Done_inv in H as [-> _].
  - destruct (ready (scheduler w)) eqn:Hr.
    + destruct (tasks (scheduler w)) as [|task rest] eqn:Ht.
      * rewrite poll_callback in H by done.
        apply finishes_bind_inv in H as [(a & w1 & _ & Hp)|(o1 & Hc & _ & ->)].
        -- by eapply IH.
        -- apply abrupt_front. by eapply innerCallback_front.
      * rewrite (poll_task fuel task rest) in H by done.
        apply finishes_bind_inv in H as [(a & w1 & _ & Hp)|(o1 & Hc & _ & ->)].
        -- by eapply IH.
        -- apply abrupt_front. by eapply run_task_front.
    + rewrite poll_ready in H by by rewrite Hr.
      by apply finishes_Done_inv in H as [-> _].
Qed.

(** X16: whatever the tasks and the callback do, short of taking the front
    of an empty queue themselves, a run of the resolution loop does not end
    in [front()] or [pop_front()] of an empty ready queue, however often it
    is suspended and resumed. *)
Lemma loop_front (fuel : nat) (w : World) o w' :
  finishes (loop fuel w) o w' -> o ≠ Undefined FrontOfEmptyDeque.
Proof.
  rewrite loop_unfold. intros H Ho. subst o.
  apply finishes_noexcept_cases in H as [Hb|[? _]]; last done.
  apply finishes_bind_inv in Hb as [(a & w1 & Hg & He)|(o1 & Hg & _ & Ho)].
  - destruct a. pose proof (guarded_poll_returns _ _ _ Hg) as Hr.
    destruct (ready (scheduler w1)) as [|exitContext rest] eqn:Hr1; first done.
    rewrite (loop_exit_jumps _ exitContext rest) in He by done.
    apply finishes_Yield_inv in He as [w2 He].
    by apply finishes_Done_inv in He as [? _].
  - apply finishes_catch_inv in Hg as [(x & w1 & _ & Hh)|[Hp _]].
    + apply loop_handler_finishes in Hh as [(_ & -> & _) | (_ & -> & _)]; done.
    + apply poll_front in Hp. by destruct o1.
Qed.

End Front.

(** ** First in, first out *)

Lemma spawned_tasks_app (h1 h2 : list Event) :
  spawned_tasks (h1 ++ h2) = spawned_tasks h1 ++ spawned_tasks h2.
Proof.
  induction h1 as [|e h1 IH]; first done.
  destruct e; cbn; by rewrite IH.
Qed.

Lemma started_tasks_app (h1 h2 : list Event) :
  started_tasks (h1 ++ h2) = started_tasks h1 ++ started_tasks h2.
Proof.
  induction h1 as [|e h1 IH]; first done.
  destruct e; cbn; by rewrite IH.
Qed.

(** A step that leaves the task queue and appends no event of a task keeps
    [fifo]. *)
Lemma fifo_same (events : list Event) (w w' : World) :
  tasks (scheduler w') = tasks (scheduler w) ->
  history w' = history w ++ events ->
  spawned_tasks events = [] -> started_tasks events = [] ->
  fifo w -> fifo w'.
Proof.
  unfold fifo. intros Ht Hh Hs Hr H.
  by rewrite Ht, Hh, spawned_tasks_app, started_tasks_app, Hs, Hr, !app_nil_r.
Qed.

Lemma fifo_unchanged (w w' : World) :
  tasks (scheduler w') = tasks (scheduler w) -> history w' = history w ->
  fifo w -> fifo w'.
Proof.
  intros Ht Hh. apply (fifo_same []); try done. by rewrite app_nil_r.
Qed.

(** [spawn] puts the task behind the others. *)
Lemma fifo_spawned (task : Task) (w : World) : fifo w -> fifo (spawned task w).
Proof.
  unfold fifo. cbn. intros H.
  by rewrite spawned_tasks_app, started_tasks_app, H, app_nil_r, app_assoc.
Qed.

(** The loop calls the task that was spawned first. *)
Lemma fifo_started (task : Task) (rest : list Task) (w : World) :
  tasks (scheduler w) = task :: rest -> fifo w -> fifo (started task rest w).
Proof.
  unfold fifo. cbn. intros Ht H.
  by rewrite spawned_tasks_app, started_tasks_app, H, Ht, app_nil_r, <- app_assoc.
Qed.

Lemma along_bind {A B} (P : World -> Prop) (r : Res A) (f : A -> M B) :
  along P r -> (forall a w, P w -> along P (f a w)) ->
  along P (res_bind r f).
Proof.
  intros Hr Hf. induction r as [o w|save to w k IH].
  - destruct o; cbn in *; auto.
  - destruct Hr as [Hw Hk]. cbn. split; first done.
    intros w' Hw'. apply IH. by apply Hk.
Qed.

Lemma along_catch {A} (P : World -> Prop) (r : Res A) (h : exn -> M A) :
  along P r -> (forall x w, P w -> along P (h x w)) ->
  along P (res_catch r h).
Proof.
  intros Hr Hh. induction r as [o w|save to w k IH].
  - destruct o; cbn in *; auto.
  - destruct Hr as [Hw Hk]. cbn. split; first done.
    intros w' Hw'. apply IH. by apply Hk.
Qed.

Lemma along_throw_spec {A} (P : World -> Prop) (allowed : exn -> bool) (r : Res A) :
  along P r -> along P (res_throw_spec allowed r).
Proof.
  intros Hr. induction r as [o w|save to w k IH].
  - destruct o; cbn in *; auto. by destruct (allowed x).
  - destruct Hr as [Hw Hk]. cbn. split; first done.
    intros w' Hw'. apply IH. by apply Hk.
Qed.

Lemma along_noexcept {A} (P : World -> Prop) (r : Res A) :
  along P r -> along P (res_noexcept r).
Proof.
  intros Hr. induction r as [o w|save to w k IH].
  - by destruct o.
  - destruct Hr as [Hw Hk]. cbn. split; first done.
    intros w' Hw'. apply IH. by apply Hk.
Qed.

(** The calls of the library keep [fifo]: the completion methods, [await]
    and [spawn]. *)
Lemma complete_by_fifo (op : @Completion ValueType ErrorType) (this : nat) (w : World) :
  fifo w -> along fifo (complete_by op this w).
Proof.
  intros H.
  destruct (futures w !! this) as [[st p]|] eqn:Hf.
  - destruct st;
      try (by rewrite (complete_by_fulfilled op this _ w Hf)).
    destruct p as [c|e|v].
    + rewrite (complete_by_unresolved op this c w Hf). cbn [along].
      apply (fifo_same (notify_events c ++ assignment_events op this) w);
        try done; by destruct c, op.
    + destruct op; cbn;
        unfold setResult, setResult_void, setError, setUnexpected, throw_spec,
          bind, complete, throw_spec, complete_body, bind, deref;
        by rewrite Hf.
    + destruct op; cbn;
        unfold setResult, setResult_void, setError, setUnexpected, throw_spec,
          bind, complete, throw_spec, complete_body, bind, deref;
        by rewrite Hf.
  - destruct op; cbn;
      unfold setResult, setResult_void, setError, setUnexpected, throw_spec,
        bind, complete, throw_spec, complete_body, bind, deref;
      by rewrite Hf.
Qed.

Lemma await_fifo (fuel this : nat) (w : World) :
  fifo w -> along fifo (await fuel this w).
Proof.
  revert w. induction fuel as [|fuel IH]; intros w H.
  - cbn. unfold throw_spec, bind, deref.
    by destruct (futures w !! this) as [[[] []]|].
  - destruct (futures w !! this) as [[st p]|] eqn:Hf.
    + destruct st, p as [c|e|v];
        try (cbn; unfold throw_spec, bind, deref; by rewrite Hf).
      destruct (await_unresolved fuel this c w Hf) as (k & -> & Hk).
      cbn [along]. split; first by apply (fifo_unchanged w).
      intros w' Hw'. rewrite Hk. apply along_throw_spec, IH.
      by apply (fifo_unchanged w').
    + cbn. unfold throw_spec, bind, deref. by rewrite Hf.
Qed.

Lemma await_void_fifo (fuel this : nat) (w : World) :
  fifo w -> along fifo (await_void fuel this w).
Proof.
  revert w. induction fuel as [|fuel IH]; intros w H.
  - cbn. unfold throw_spec, bind, deref.
    by destruct (futures w !! this) as [[[] []]|].
  - destruct (futures w !! this) as [[st p]|] eqn:Hf.
    + destruct st, p as [c|e|v];
        try (cbn; unfold throw_spec, bind, deref; by rewrite Hf).
      destruct (await_void_unresolved fuel this c w Hf) as (k & -> & Hk).
      cbn [along]. split; first by apply (fifo_unchanged w).
      intros w' Hw'. rewrite Hk. apply along_throw_spec, IH.
      by apply (fifo_unchanged w').
    + cbn. unfold throw_spec, bind, deref. by rewrite Hf.
Qed.

Lemma spawn_fifo (call : nat) (w : World) :
  fifo w -> along fifo (spawn call w) /\ along fifo (spawn_void call w).
Proof.
  intros H. destruct (spawn_spawned call w) as [-> ->].
  split; by apply fifo_spawned.
Qed.

Section Fifo.

(** The user's code keeps [fifo], as it does when all it does to the
    scheduler and the Futures is to call the functions above. *)
Hypothesis innerCallback_fifo : forall w, fifo w -> along fifo (innerCallback w).
Hypothesis call_value_fifo : forall call w, fifo w -> along fifo (call_value call w).
Hypothesis call_void_fifo : forall call w, fifo w -> along fifo (call_void call w).

Lemma run_task_fifo (task : Task) (w : World) :
  fifo w -> along fifo (run_task task w).
Proof.
  intros H.
  assert (Hh : forall x (w1 : World),
             fifo w1 -> along fifo (spawn_handlers (fut_of task) x w1)).
  { intros x w1 H1. destruct x; cbn [spawn_handlers].
    - exact H1.
    - by apply (complete_by_fifo BySetUnexpected).
    - by apply (complete_by_fifo (BySetError e)).
    - by apply (complete_by_fifo BySetUnexpected). }
  destruct task as [fut call|fut call]; cbn [run_task];
    unfold try_catch, bind; apply along_catch; try exact Hh; apply along_bind.
  - by apply call_value_fifo.
  - intros v w1 H1. by apply (complete_by_fifo (BySetResult v)).
  - by apply call_void_fifo.
  - intros _ w1 H1. by apply (complete_by_fifo BySetResultVoid).
Qed.

Lemma poll_fifo (fuel : nat) (w : World) :
  fifo w -> along fifo (poll fuel w).
Proof.
  revert w. induction fuel as [|fuel IH]; intros w H.
  - cbn. by destruct (ready (scheduler w)).
  - destruct (ready (scheduler w)) eqn:Hr.
    + destruct (tasks (scheduler w)) as [|task rest] eqn:Ht.
      * rewrite poll_callback by done. apply along_bind.
        -- by apply innerCallback_fifo.
        -- intros _ w1 H1. by apply IH.
      * rewrite (poll_task fuel task rest) by done. apply along_bind.
        -- apply run_task_fifo. by apply fifo_started.
        -- intros _ w1 H1. by apply IH.
    + rewrite poll_ready by by rewrite Hr. exact H.
Qed.

(** Across the runs of the resolution loop, and the contexts that are
    suspended and resumed in them, the tasks are called in the order they
    were spawned. *)
Lemma loop_fifo (fuel : nat) (w : World) :
  fifo w -> along fifo (loop fuel w).
Proof.
  intros H. rewrite loop_unfold. apply along_noexcept, along_bind.
  - apply along_catch.
    + apply poll_fifo. by apply (fifo_unchanged w).
    + intros x w1 H1. destruct x; cbn; exact H1.
  - intros _ w1 H1. unfold loop_exit.
    destruct (ready (scheduler w1)) as [|exitContext rest]; first exact H1.
    cbn. split; last done. by apply (fifo_unchanged w1).
Qed.

End Fifo.

(** ** Waiters *)





(** ** Main results *)

(** X15: a Future is completed at most once.  Of two calls of completion
    methods on one Future, whichever they are, at most the first returns;
    the second changes nothing and ends in [std::unexpected()]. *)
Lemma second_completion_fails (op1 op2 : @Completion ValueType ErrorType)
    (this : nat) (w w1 : World) :
  complete_by op1 this w = Done (Returns tt) w1 ->
  complete_by op2 this w1 = Done CallsUnexpected w1.
Proof.
  intros H1.
  destruct (futures w !! this) as [[st p]|] eqn:Hf.
  - destruct st;
      try (rewrite (complete_by_fulfilled op1 this _ w Hf) in H1 by done; done).
    destruct p as [c|e|v].
    + rewrite (complete_by_unresolved op1 this c w Hf) in H1.
      injection H1 as <-.
      apply (complete_by_fulfilled op2 this (fulfilled op1 c)).
      * apply completed_lookup.
      * by destruct op1.
    + destruct op1; cbn in H1;
        unfold setResult, setResult_void, setError, setUnexpected, throw_spec,
          bind, complete, throw_spec, complete_body, bind, deref in H1;
        rewrite Hf in H1; cbn in H1; done.
    + destruct op1; cbn in H1;
        unfold setResult, setResult_void, setError, setUnexpected, throw_spec,
          bind, complete, throw_spec, complete_body, bind, deref in H1;
        rewrite Hf in H1; cbn in H1; done.
  - destruct op1; cbn in H1;
      unfold setResult, setResult_void, setError, setUnexpected, throw_spec,
        bind, complete, throw_spec, complete_body, bind, deref in H1;
      rewrite Hf in H1; cbn in H1; done.
Qed.

(** C2, as amended: [spawn] allocates an unresolved Future and appends its
    closure to the task queue.  When the closure runs and the Future is still
    unresolved as the function object ends, the closure completes the Future
    with SUCCESS and the returned value (without a payload in the overload
    for [void]) if the function object returned, with FAILURE and [e] if it
    threw [e] of the error type, and with UNEXPECTED if it threw anything
    else other than [FutureAlreadyFulfilled]; the contexts that waited are
    appended to the ready queue. *)
Theorem spawn_closure_completes (task : Task) (c : FContextCons) (w w1 : World) :
  futures w1 !! fut_of task = Some (mkFuture UNRESOLVED (as_cons c)) ->
  (forall call (w0 : World),
     spawn call w0
     = Done (Returns (next_future w0)) (spawned (TaskValue (next_future w0) call) w0) /\
     spawn_void call w0
     = Done (Returns (next_future w0)) (spawned (TaskVoid (next_future w0) call) w0)) /\
  (forall v, call_returns call_value call_void task v w w1 ->
     finishes (run_task task w) (Returns tt)
       (completed (fut_of task) c (fulfilled (success_of v) c)
          (notify_events c
           ++ assignment_events (success_of v : @Completion ValueType ErrorType)
                (fut_of task)) w1)) /\
  (forall e, call_raises call_value call_void task (Error e) w w1 ->
     finishes (run_task task w) (Returns tt)
       (completed (fut_of task) c (mkFuture FAILURE (as_error e))
          (notify_events c ++ [EvState (fut_of task) FAILURE; EvPayload (fut_of task)]) w1)) /\
  (forall x, is_ErrorType x = false -> is_FutureAlreadyFulfilled x = false ->
     call_raises call_value call_void task x w w1 ->
     finishes (run_task task w) (Returns tt)
       (completed (fut_of task) c (mkFuture UNEXPECTED (as_cons c))
          (notify_events c ++ [EvState (fut_of task) UNEXPECTED]) w1)).
Proof.
  intros Hf. split; [|split; [|split]].
  - intros call w0. apply spawn_spawned.
  - intros v Hc. eapply run_task_returns; [exact Hc| |done].
    by apply complete_by_unresolved.
  - intros e Hc. eapply run_task_raises; [exact Hc|].
    cbn [spawn_handlers]. rewrite (setError_unresolved _ c) by exact Hf. constructor.
  - intros x He Hx Hc. eapply run_task_raises; [exact Hc|].
    destruct x; try done; cbn [spawn_handlers];
      rewrite (setUnexpected_unresolved _ c) by exact Hf; constructor.
Qed.

(** C3: [await] returns the stored value when the state is SUCCESS (nothing
    for [Future<void, E>]) and throws the stored error when it is FAILURE;
    when it is UNRESOLVED it links a cell with a fresh context at the head of
    the list of waiting contexts and jumps, in [waitUntilReady], to a new
    context that enters the resolution loop, saving itself into the cell; once
    resumed it releases the stack of that loop and calls [await] again, which
    looks at the state anew.  (In the state UNEXPECTED it calls
    [std::unexpected()].) *)
Theorem await_dispatch (fuel this : nat) (fut : FutureBase) (w : World) :
  futures w !! this = Some fut ->
  match state fut with
  | SUCCESS =>
      await_void fuel this w = Done (Returns tt) w /\
      forall v, contents fut = as_result v -> await fuel this w = Done (Returns v) w
  | FAILURE =>
      forall e, contents fut = as_error e ->
        await fuel this w = Done (Throws (Error e)) w /\
        await_void fuel this w = Done (Throws (Error e)) w
  | UNEXPECTED =>
      await fuel this w = Done CallsUnexpected w /\
      await_void fuel this w = Done CallsUnexpected w
  | UNRESOLVED =>
      forall c, contents fut = as_cons c ->
        let node := next_context w in
        let sc := mkStack (next_stack w) (contextSize (scheduler w)) in
        futures (suspended this c w) !! this
        = Some (mkFuture UNRESOLVED (as_cons (Cons node c))) /\
        exists k kv,
          await (S fuel) this w = Yield node (Entry sc) (suspended this c w) k /\
          await_void (S fuel) this w = Yield node (Entry sc) (suspended this c w) kv /\
          forall w',
            k w' = throw_spec is_ErrorType (await fuel this) (released sc w') /\
            kv w' = throw_spec is_ErrorType (await_void fuel this) (released sc w') /\
            forall v, futures w' !! this = Some (mkFuture SUCCESS (as_result v)) ->
              k w' = Done (Returns v) (released sc w') /\
              kv w' = Done (Returns tt) (released sc w')
  end.
Proof.
  intros Hf. destruct fut as [st p]. destruct st; cbn [state contents].
  - intros c ->. cbn zeta. split; first (cbn; apply lookup_insert_eq).
    destruct (await_unresolved fuel this c w Hf) as (k & Hk & Hk').
    destruct (await_void_unresolved fuel this c w Hf) as (kv & Hkv & Hkv').
    exists k, kv. split; first done. split; first done.
    intros w'. split; first done. split; first done.
    intros v Hv. rewrite Hk', Hkv'. unfold throw_spec.
    rewrite (await_success fuel this v) by exact Hv.
    by rewrite (await_void_success fuel this (as_result v)) by exact Hv.
  - split; first by eapply await_void_success.
    intros v ->. by apply await_success.
  - intros e ->. split; [by apply await_failure | by apply await_void_failure].
  - split; [by eapply await_unexpected | by eapply await_void_unexpected].
Qed.

(** C4, as amended: a completion method called on an unresolved Future calls
    [notifyReady] on the head of the list of waiting contexts (in [complete])
    before it assigns the state and the payload; [notifyReady] only appends
    the contexts to the ready queue and the method returns without a jump, so
    the state and the payload are in place when it returns and a waiter that
    is resumed afterwards and calls [await] again sees the final state. *)
Theorem completion_notifies_then_assigns (op : @Completion ValueType ErrorType) (this : nat)
    (c : FContextCons) (w : World) :
  futures w !! this = Some (mkFuture UNRESOLVED (as_cons c)) ->
  exists w',
    complete_by op this w = Done (Returns tt) w' /\
    history w' = history w ++ notify_events c ++ assignment_events op this /\
    ready (scheduler w') = ready (scheduler w) ++ contexts c /\
    futures w' !! this = Some (fulfilled op c) /\
    forall fuel (w'' : World), futures w'' !! this = futures w' !! this ->
      match op with
      | BySetResult v => await fuel this w'' = Done (Returns v) w''
      | BySetResultVoid => await_void fuel this w'' = Done (Returns tt) w''
      | BySetError e =>
          await fuel this w'' = Done (Throws (Error e)) w'' /\
          await_void fuel this w'' = Done (Throws (Error e)) w''
      | BySetUnexpected =>
          await fuel this w'' = Done CallsUnexpected w'' /\
          await_void fuel this w'' = Done CallsUnexpected w''
      end.
Proof.
  intros Hf. eexists. split; first by apply complete_by_unresolved.
  split; first done. split; first done.
  split; first by apply completed_lookup.
  intros fuel w'' Hw. rewrite completed_lookup in Hw.
  destruct op; cbn [fulfilled] in Hw.
  - by apply await_success.
  - by eapply await_void_success.
  - split; [by apply await_failure | by apply await_void_failure].
  - split; [by eapply await_unexpected | by eapply await_void_unexpected].
Qed.

(** C5, as amended: when an exception leaves the [while] of the resolution
    loop, from a task or from the callback, the process ends in
    [std::terminate()]: for a [FutureAlreadyFulfilled] thrown by value the
    handler of the loop first writes the diagnostic to [std::cerr], the
    sentence below followed by a newline, behind what was written before; for
    any other exception nothing is written, the loop being [noexcept].  No
    exception ever leaves [loop]. *)
Theorem loop_terminates_on_exception (fuel : nat) (x : exn) (w w' : World) :
  finishes (poll fuel (declared w)) (Throws x) w' ->
  finishes (loop fuel w) CallsTerminate
    (if is_FutureAlreadyFulfilled x
     then with_cerr
            (cerr w'
             ++ [String.append
                   "A Future was fulfilled a second time within a Scheduler loop. This is non-recoverable."
                   (String "010"%char EmptyString)])
            w'
     else w') /\
  forall o w'', finishes (loop fuel w) o w'' -> forall y, o ≠ Throws y.
Proof.
  intros Hp. split.
  - rewrite loop_unfold.
    destruct (is_FutureAlreadyFulfilled x) eqn:Hx.
    + apply finishes_noexcept_other; last done.
      change (@CallsTerminate ErrorType unit)
        with (@abrupt ErrorType unit unit CallsTerminate).
      apply finishes_bind_abrupt; last done.
      eapply finishes_catch_throws; first exact Hp.
      destruct x; try done. cbn. constructor.
    + apply (finishes_noexcept_throws _ x).
      change (Throws x) with (@abrupt ErrorType unit unit (Throws x)).
      apply finishes_bind_abrupt; last done.
      eapply finishes_catch_throws; first exact Hp.
      destruct x; try done; cbn; constructor.
  - intros o w'' H. by eapply finishes_noexcept_inv.
Qed.

(** C6: when the function object that a closure of [spawn] runs throws
    [FutureAlreadyFulfilled], the closure throws it on, in the world the
    function object left: no completion method is called, so it is not
    stored in the Future as FAILURE or UNEXPECTED. *)
Theorem spawn_closure_rethrows (task : Task) (w w1 : World) :
  call_raises call_value call_void task FutureAlreadyFulfilled w w1 ->
  finishes (run_task task w) (Throws FutureAlreadyFulfilled) w1.
Proof.
  intros Hc. eapply run_task_raises; first exact Hc.
  cbn. constructor.
Qed.

(** C7: while the ready queue is empty, an iteration of the resolution loop
    takes the task at the front of the task queue off the queue and calls it,
    when there is one, and otherwise calls the callback once: with a task in
    the queue the callback is not called.  The task is called in the world in
    which it is off the queue, the tasks behind it are left in their order
    and nothing else has changed; when the call returns, the next iteration
    starts in the world the call left, and the same after the callback.
    [spawn] puts a task at the back of the queue.  So, as long as the user's
    code leaves the queue to [spawn] and the loop, the tasks called so far
    are always the first of the tasks spawned, in the order they were
    spawned: this holds wherever a run of the loop jumps away or ends. *)
Theorem loop_runs_tasks_first_in_first_out (fuel : nat) (w : World) :
  ready (scheduler w) = [] ->
  fifo w ->
  (forall w0, fifo w0 -> along fifo (innerCallback w0)) ->
  (forall call w0, fifo w0 -> along fifo (call_value call w0)) ->
  (forall call w0, fifo w0 -> along fifo (call_void call w0)) ->
  match tasks (scheduler w) with
  | task :: rest =>
      poll (S fuel) w
      = res_bind (run_task task (started task rest w)) (fun _ => poll fuel) /\
      started task rest w
      = mkWorld (mkScheduler [] (contextSize (scheduler w)) rest)
                (futures w) (next_future w) (next_context w) (stacks w)
                (next_stack w) (cerr w) (history w ++ [EvRun task]) (user w) /\
      started_tasks (history (started task rest w))
      = started_tasks (history w) ++ [task] /\
      (forall w1, run_task task (started task rest w) = Done (Returns tt) w1 ->
                  poll (S fuel) w = poll fuel w1) /\
      fifo (started task rest w)
  | [] =>
      poll (S fuel) w = res_bind (innerCallback w) (fun _ => poll fuel) /\
      (forall w1, innerCallback w = Done (Returns tt) w1 ->
                  poll (S fuel) w = poll fuel w1)
  end /\
  (forall call,
     let value := TaskValue (next_future w) call in
     let void := TaskVoid (next_future w) call in
     spawn call w = Done (Returns (next_future w)) (spawned value w) /\
     spawn_void call w = Done (Returns (next_future w)) (spawned void w) /\
     tasks (scheduler (spawned value w)) = tasks (scheduler w) ++ [value] /\
     tasks (scheduler (spawned void w)) = tasks (scheduler w) ++ [void] /\
     fifo (spawned value w) /\ fifo (spawned void w)) /\
  along fifo (loop fuel w).
Proof.
  intros Hr Hfifo Hcb Hvalue Hvoid. split; [|split].
  - destruct (tasks (scheduler w)) as [|task rest] eqn:Ht.
    + split; first by apply poll_callback.
      intros w1 H1. rewrite poll_callback by done. by rewrite H1.
    + split; first by apply poll_task.
      split.
      { unfold started, log_event, with_history, with_tasks, with_scheduler.
        cbn. by rewrite Hr. }
      split; first (cbn; by rewrite started_tasks_app).
      split; last by apply fifo_started.
      intros w1 H1. rewrite (poll_task fuel task rest) by done. by rewrite H1.
  - intros call value void. destruct (spawn_spawned call w) as [Hv Hu].
    repeat split; try done; by apply fifo_spawned.
  - by apply loop_fifo.
Qed.



(** C10: the statements [ready.front()] and [ready.pop_front()] after the
    [try] block of the resolution loop are reached with a context in the
    ready queue: the [while] is left normally only then and the handler does
    not return, so [loop_exit] takes the front of a queue that is not empty
    and jumps to it. *)
Theorem loop_exit_reached_with_ready (fuel : nat) (w w' : World) :
  finishes (try_catch (poll fuel) loop_handler w) (Returns tt) w' ->
  exists exitContext rest,
    ready (scheduler w') = exitContext :: rest /\
    forall junkContext,
      loop_exit junkContext w'
      = jump_fcontext junkContext (Resume exitContext) (with_ready rest w').
Proof.
  intros H. unfold try_catch in H. apply guarded_poll_returns in H.
  destruct (ready (scheduler w')) as [|exitContext rest] eqn:Hr; first done.
  exists exitContext, rest. split; first done.
  intros junkContext. by apply loop_exit_jumps.
Qed.

(** ** Exception specifications *)

Lemma finishes_throw_spec_inv {A} (allowed : exn -> bool) (r : Res A) o w :
  finishes (res_throw_spec allowed r) o w ->
  (finishes r o w /\ forall x, o = Throws x -> allowed x = true) \/
  (o = CallsUnexpected /\ exists x, finishes r (Throws x) w /\ allowed x = false).
Proof.
  revert o w. induction r as [o1 w0|save to w0 k IH]; intros o w H.
  - destruct o1 as [a|x| | |u|];
      try (left; apply finishes_Done_inv in H as [-> ->];
           split; [constructor | done]).
    cbn in H. destruct (allowed x) eqn:Hx;
      apply finishes_Done_inv in H as [-> ->].
    + left. split; first constructor. by intros ? [= <-].
    + right. split; first done. exists x. split; [constructor | done].
  - cbn in H. apply finishes_Yield_inv in H as [w' Hk].
    destruct (IH w' _ _ Hk) as [[Hr Ha]|(-> & x & Hr & Hx)].
    + left. split; [econstructor; exact Hr | exact Ha].
    + right. split; first done. exists x. split; [econstructor; exact Hr | exact Hx].
Qed.

Lemma finishes_throw_spec_twice {A} (allowed : exn -> bool) (r : Res A) o w :
  finishes (res_throw_spec allowed (res_throw_spec allowed r)) o w <->
  finishes (res_throw_spec allowed r) o w.
Proof.
  revert o w. induction r as [o1 w0|save to w0 k IH]; intros o w.
  - destruct o1 as [a|x| | |u|]; try done.
    cbn. destruct (allowed x) eqn:Hx; cbn; by rewrite ?Hx.
  - cbn. split; intros H; apply finishes_Yield_inv in H as [w' H];
      apply IH in H; by econstructor.
Qed.

(** ** What a completion method leaves alone *)

(** A completion method either finds the Future unresolved, hands over the
    cells and fulfils it, or leaves everything as it is and does not
    return. *)
Lemma complete_by_cases (op : @Completion ValueType ErrorType) (this : nat) (w : World) :
  (exists c,
     futures w !! this = Some (mkFuture UNRESOLVED (as_cons c)) /\
     complete_by op this w
     = Done (Returns tt)
            (completed this c (fulfilled op c)
               (notify_events c ++ assignment_events op this) w)) \/
  (exists o,
     complete_by op this w = Done o w /\ o ≠ Returns tt /\ is_Throws o = false).
Proof.
  destruct (futures w !! this) as [[st p]|] eqn:Hf.
  - destruct st;
      try (right; exists CallsUnexpected; split;
           [by apply (complete_by_fulfilled op this _ w Hf) | done]).
    destruct p as [c|e|v].
    + left. exists c. split; first done. by apply complete_by_unresolved.
    + right. exists (Undefined InactiveMember). split; last done.
      destruct op; cbn;
        unfold setResult, setResult_void, setError, setUnexpected, throw_spec,
          bind, complete, throw_spec, complete_body, bind, deref;
        by rewrite Hf.
    + right. exists (Undefined InactiveMember). split; last done.
      destruct op; cbn;
        unfold setResult, setResult_void, setError, setUnexpected, throw_spec,
          bind, complete, throw_spec, complete_body, bind, deref;
        by rewrite Hf.
  - right. exists (Undefined DanglingFuture). split; last done.
    destruct op; cbn;
      unfold setResult, setResult_void, setError, setUnexpected, throw_spec,
        bind, complete, throw_spec, complete_body, bind, deref;
      by rewrite Hf.
Qed.

Lemma complete_by_never_throws (op : @Completion ValueType ErrorType) (this : nat)
    (w : World) o w' :
  finishes (complete_by op this w) o w' -> forall x, o ≠ Throws x.
Proof.
  destruct (complete_by_cases op this w) as [(c & _ & ->)|(o1 & -> & _ & Ho)];
    intros H x; apply finishes_Done_inv in H as [-> _]; first done.
  by destruct o1.
Qed.

Lemma spawn_handlers_throw (fut : nat) (x y : exn) (w : World) w' :
  finishes (spawn_handlers fut x w) (Throws y) w' ->
  x = FutureAlreadyFulfilled /\ y = FutureAlreadyFulfilled /\ w' = w.
Proof.
  intros H. destruct x; cbn [spawn_handlers] in H.
  - by apply finishes_Done_inv in H as [[= ->] ->].
  - by destruct (complete_by_never_throws BySetUnexpected _ _ _ _ H y).
  - by destruct (complete_by_never_throws (BySetError e) _ _ _ _ H y).
  - by destruct (complete_by_never_throws BySetUnexpected _ _ _ _ H y).
Qed.

(** ** The callback as the only source of progress *)

Lemma poll_ticks (tick : World -> World) (n fuel : nat) (w : World) :
  (forall i, i < n ->
     ready (scheduler (ticks tick i w)) = [] /\
     tasks (scheduler (ticks tick i w)) = [] /\
     innerCallback (ticks tick i w) = Done (Returns tt) (tick (ticks tick i w))) ->
  ready (scheduler (ticks tick n w)) ≠ [] ->
  poll (n + fuel) w = Done (Returns tt) (ticks tick n w).
Proof.
  revert w. induction n as [|n IH]; intros w Hi Hn.
  - by apply poll_ready.
  - destruct (Hi 0) as (Hr & Ht & Hc); first lia. cbn [ticks] in Hr, Ht, Hc.
    cbn [Nat.add]. rewrite poll_callback by done. rewrite Hc. cbn [res_bind ticks].
    apply IH; last exact Hn.
    intros i Hlt. apply (Hi (S i)). lia.
Qed.

(** ** Further results *)

(** X1: however a call of [Future::await] ends, after whatever suspensions,
    it ends as the Future tells at that moment: a value is returned only when
    the Future holds SUCCESS with that value, the only exceptions thrown
    are the errors stored with FAILURE, [std::unexpected()] is called only
    with UNEXPECTED, and [std::terminate()] never. *)
Theorem await_ends_as_stored (fuel this : nat) (w : World) o w' :
  finishes (await fuel this w) o w' ->
  ends_as_stored (fun v p => p = as_result v) this o w'.
Proof.
  revert w o w'. induction fuel as [|fuel IH]; intros w o w' H.
  - cbn in H. unfold throw_spec, bind, deref in H.
    destruct (futures w !! this) as [[[] []]|] eqn:Hf; cbn in H;
      apply finishes_Done_inv in H as [-> ->]; cbn; eauto.
  - destruct (futures w !! this) as [[st p]|] eqn:Hf.
    + destruct st, p as [c|e|v];
        try (cbn in H; unfold throw_spec, bind, deref in H; rewrite Hf in H;
             cbn in H; apply finishes_Done_inv in H as [-> ->]; cbn; by eauto).
      destruct (await_unresolved fuel this c w Hf) as (k & Hk & Hk').
      rewrite Hk in H. apply finishes_Yield_inv in H as [w1 H].
      rewrite Hk' in H. unfold throw_spec in H.
      apply finishes_throw_spec_inv in H as [[H _]|(-> & x & H & Hx)].
      * by apply IH in H.
      * apply IH in H as (e & -> & _). done.
    + cbn in H. unfold throw_spec, bind, deref in H. rewrite Hf in H.
      cbn in H. apply finishes_Done_inv in H as [-> ->]. cbn. eauto.
Qed.

(** X2: the same for [Future<void, ErrorType>::await], which returns
    whatever the union holds once the state is SUCCESS. *)
Theorem await_void_ends_as_stored (fuel this : nat) (w : World) o w' :
  finishes (await_void fuel this w) o w' ->
  ends_as_stored (fun _ _ => True) this o w'.
Proof.
  revert w o w'. induction fuel as [|fuel IH]; intros w o w' H.
  - cbn in H. unfold throw_spec, bind, deref in H.
    destruct (futures w !! this) as [[[] []]|] eqn:Hf; cbn in H;
      apply finishes_Done_inv in H as [-> ->]; cbn; eauto.
  - destruct (futures w !! this) as [[st p]|] eqn:Hf.
    + destruct st, p as [c|e|v];
        try (cbn in H; unfold throw_spec, bind, deref in H; rewrite Hf in H;
             cbn in H; apply finishes_Done_inv in H as [-> ->]; cbn; by eauto).
      destruct (await_void_unresolved fuel this c w Hf) as (k & Hk & Hk').
      rewrite Hk in H. apply finishes_Yield_inv in H as [w1 H].
      rewrite Hk' in H. unfold throw_spec in H.
      apply finishes_throw_spec_inv in H as [[H _]|(-> & x & H & Hx)].
      * by apply IH in H.
      * apply IH in H as (e & -> & _). done.
    + cbn in H. unfold throw_spec, bind, deref in H. rewrite Hf in H.
      cbn in H. apply finishes_Done_inv in H as [-> ->]. cbn. eauto.
Qed.

(** X3: the conversion operator of [Future] ends exactly as [await] does,
    with the same outcome in the same world: its exception specification
    [throw (ErrorType)] is the one [await] has already, so it never turns an
    exception of [await] into [std::unexpected()]. *)
Theorem conversion_is_await (fuel this : nat) (w : World) o w' :
  finishes (to_ValueType fuel this w) o w' <-> finishes (await fuel this w) o w'.
Proof.
  unfold to_ValueType, throw_spec at 1.
  destruct fuel; cbn [await]; unfold throw_spec at 1; apply finishes_throw_spec_twice.
Qed.

(** X4: a completion method ([setResult] of either class, [setError],
    [setUnexpected]) never jumps to another context and never throws to its
    caller, whatever the state of the Future; it changes nothing but the
    Future it is called on, the ready queue, which only grows at the back,
    and the history; and when it does not return it has changed nothing at
    all. *)
Theorem completion_is_local (op : @Completion ValueType ErrorType) (this : nat)
    (w : World) :
  exists o w' extra,
    complete_by op this w = Done o w' /\
    is_Throws o = false /\
    only_completed this extra w w' /\
    (o ≠ Returns tt -> w' = w).
Proof.
  destruct (complete_by_cases op this w) as [(c & Hf & ->)|(o & -> & Ho & Ht)].
  - eexists _, _, (contexts c). split; first done.
    split; first done. split; last done.
    repeat split. intros other Hne. cbn. by apply lookup_insert_ne.
  - exists o, w, []. split; first done. split; first exact Ht.
    split; last done. repeat split. by rewrite app_nil_r.
Qed.

(** X5: the only exception that leaves a closure of [spawn] is a
    [FutureAlreadyFulfilled] that its function object threw: the completion
    methods that the closure calls do not throw, and every other exception of
    the function object is stored in the Future. *)
Theorem spawn_closure_throws_only_AlreadyFulfilled (task : Task) (x : exn)
    (w w' : World) :
  finishes (run_task task w) (Throws x) w' ->
  x = FutureAlreadyFulfilled /\
  call_raises call_value call_void task FutureAlreadyFulfilled w w'.
Proof.
  intros H.
  destruct task as [fut call|fut call]; cbn [run_task] in H;
    unfold try_catch, bind in H;
    apply finishes_catch_inv in H as [(x0 & w1 & Hb & Hh)|[_ Hn]];
    try (by destruct (Hn x));
    apply spawn_handlers_throw in Hh as (-> & -> & ->); split; try done;
    apply finishes_bind_inv in Hb as [(v & w2 & _ & Hs)|(o1 & Hc & _ & Ho)].
  - by destruct (complete_by_never_throws (BySetResult v) _ _ _ _ Hs FutureAlreadyFulfilled).
  - destruct o1; try done. cbn in Ho. by injection Ho as <-.
  - by destruct (complete_by_never_throws BySetResultVoid _ _ _ _ Hs FutureAlreadyFulfilled).
  - destruct o1; try done. cbn in Ho. by injection Ho as <-.
Qed.

(** X6: with nothing ready and no task, the resolution loop calls the
    callback again and again, and nothing else, until a call leaves a context
    in the ready queue; then it takes the first context off the queue and
    jumps to it.  [tick] is what a call of the callback does to the world,
    and [n] the number of calls it takes. *)
Theorem loop_drives_progress (tick : World -> World) (n fuel : nat)
    (exitContext : fcontext_t) (rest : list fcontext_t) (w : World) :
  (forall i, i < n ->
     ready (scheduler (ticks tick i (declared w))) = [] /\
     tasks (scheduler (ticks tick i (declared w))) = [] /\
     innerCallback (ticks tick i (declared w))
     = Done (Returns tt) (tick (ticks tick i (declared w)))) ->
  ready (scheduler (ticks tick n (declared w))) = exitContext :: rest ->
  poll (n + fuel) (declared w) = Done (Returns tt) (ticks tick n (declared w)) /\
  first_jump (loop (n + fuel) w)
  = Some (next_context w, Resume exitContext,
          with_ready rest (ticks tick n (declared w))).
Proof.
  intros Hi Hn.
  assert (Hp : poll (n + fuel) (declared w)
               = Done (Returns tt) (ticks tick n (declared w))).
  { apply poll_ticks; first exact Hi. by rewrite Hn. }
  split; first exact Hp.
  rewrite loop_unfold, Hp. cbn [res_catch res_bind].
  by rewrite (loop_exit_jumps _ exitContext rest) by exact Hn.
Qed.

Lemma poll_spins (fuel : nat) (w : World) :
  ready (scheduler w) = [] -> tasks (scheduler w) = [] ->
  innerCallback w = Done (Returns tt) w ->
  poll fuel w = Done OutOfFuel w.
Proof.
  intros Hr Ht Hc. induction fuel as [|fuel IH].
  - cbn. by rewrite Hr.
  - rewrite poll_callback by done. rewrite Hc. exact IH.
Qed.

(** X17: [await] on an unresolved Future, with nothing ready, no task and a
    callback that makes no progress, never returns: the resolution loop it
    entered calls the callback over and over, so whatever bound is put on
    the number of iterations, the bound is reached, in the world in which the
    caller was suspended.  Nothing else completes the Future: the caller
    hangs in a busy loop. *)
Theorem await_spins_without_progress (this : nat) (c : FContextCons)
    (finish : ValueType -> M unit) (steps fuel afuel : nat)
    (saved : gmap fcontext_t (World -> Res unit)) (w : World) :
  futures w !! this = Some (mkFuture UNRESOLVED (as_cons c)) ->
  ready (scheduler w) = [] -> tasks (scheduler w) = [] ->
  innerCallback (declared (suspended this c w))
  = Done (Returns tt) (declared (suspended this c w)) ->
  poll fuel (declared (suspended this c w))
  = Done OutOfFuel (declared (suspended this c w)) /\
  run innerCallback call_value call_void (S steps) fuel saved
    ((x <- await (S afuel) this ;; finish x) w)
  = (OutOfFuel, declared (suspended this c w)).
Proof.
  intros Hf Hr Ht Hc.
  assert (Hp : poll fuel (declared (suspended this c w))
               = Done OutOfFuel (declared (suspended this c w)))
    by by apply poll_spins.
  split; first exact Hp.
  destruct (await_unresolved afuel this c w Hf) as (k & Hk & _).
  unfold bind. rewrite Hk. cbn [res_bind run].
  rewrite loop_unfold, Hp. by destruct steps.
Qed.

(** ** A task on its way through the loop *)

Lemma await_fulfilled (fuel this : nat) (op : @Completion ValueType ErrorType)
    (c : FContextCons) (w : World) :
  futures w !! this = Some (fulfilled op c) ->
  await fuel this w = Done (awaited op) w /\
  await_void fuel this w = Done (awaited_void op) w.
Proof.
  intros Hf.
  destruct op; cbn [fulfilled] in Hf; split; destruct fuel; cbn;
    unfold throw_spec, bind, deref; by rewrite Hf.
Qed.

Lemma catch_complete_by {h : exn -> M unit} (op : @Completion ValueType ErrorType)
    (this : nat) (w : World) :
  res_catch (complete_by op this w) h = complete_by op this w.
Proof.
  destruct (complete_by_cases op this w) as [(c & _ & ->)|(o & -> & _ & Ho)];
    first done.
  by destruct o.
Qed.

Lemma run_task_stores (fut call : nat) (o : Outcome ValueType)
    (op : @Completion ValueType ErrorType) (w w1 : World) :
  call_value call w = Done o w1 -> stores o = Some op ->
  run_task (TaskValue fut call) w = complete_by op fut w1.
Proof.
  intros Hc Hs. cbn [run_task]. unfold try_catch, bind. rewrite Hc.
  destruct o as [v|x| | |u|]; try done.
  - injection Hs as <-. cbn [res_bind]. apply (catch_complete_by (BySetResult v)).
  - destruct x; try done; by injection Hs as <-.
Qed.

Lemma run_task_stores_void (fut call : nat) (o : Outcome unit)
    (op : @Completion ValueType ErrorType) (w w1 : World) :
  call_void call w = Done o w1 -> stores_void o = Some op ->
  run_task (TaskVoid fut call) w = complete_by op fut w1.
Proof.
  intros Hc Hs. cbn [run_task]. unfold try_catch, bind. rewrite Hc.
  destruct o as [v|x| | |u|]; try done.
  - injection Hs as <-. cbn [res_bind]. apply (catch_complete_by BySetResultVoid).
  - destruct x; try done; by injection Hs as <-.
Qed.

(** A run of the loop whose first task completes a Future with waiters: it
    jumps to the waiter that was suspended last. *)
Lemma loop_runs_task (fuel : nat) (task : Task) (rest : list Task)
    (op : @Completion ValueType ErrorType) (node : fcontext_t) (c : FContextCons)
    (w w1 : World) :
  ready (scheduler w) = [] -> tasks (scheduler w) = task :: rest ->
  run_task task (started task rest (declared w)) = complete_by op (fut_of task) w1 ->
  futures w1 !! fut_of task = Some (mkFuture UNRESOLVED (as_cons (Cons node c))) ->
  ready (scheduler w1) = [] ->
  exists k,
    loop (S fuel) w
    = Yield (next_context w) (Resume node)
        (with_ready (contexts c)
           (completed (fut_of task) (Cons node c) (fulfilled op (Cons node c))
              (notify_events (Cons node c) ++ assignment_events op (fut_of task)) w1))
        k.
Proof.
  intros Hr Ht Hrun Hf Hr1. rewrite loop_unfold.
  rewrite (poll_task fuel task rest) by done.
  rewrite Hrun, (complete_by_unresolved op _ (Cons node c)) by exact Hf.
  cbn [res_bind]. rewrite poll_ready by (cbn; by rewrite Hr1).
  cbn [res_catch res_bind].
  rewrite (loop_exit_jumps _ node (contexts c)) by (cbn; by rewrite Hr1).
  eexists. reflexivity.
Qed.

(** X7: [spawn] and then [await], with no other task and nothing ready.
    The caller is suspended, the resolution loop calls the function object,
    and the caller goes on with what the function object did: the value it
    returned, the error of the error type it threw (thrown by [await]), or
    [std::unexpected()] if it threw anything else but a
    [FutureAlreadyFulfilled].  This takes two jumps; the Future holds the
    outcome and both queues are empty again.  [effect] is what the function
    object does to the world; it leaves the scheduler and the Futures
    alone. *)
Theorem spawn_then_await (call : nat) (o : Outcome ValueType)
    (op : @Completion ValueType ErrorType) (effect : World -> World)
    (finish : ValueType -> M unit) (steps fuel afuel : nat)
    (saved : gmap fcontext_t (World -> Res unit)) (w : World) :
  ready (scheduler w) = [] -> tasks (scheduler w) = [] ->
  (forall w0, call_value call w0 = Done o (effect w0) /\
              scheduler (effect w0) = scheduler w0 /\
              futures (effect w0) = futures w0) ->
  stores o = Some op ->
  exists saved' w',
    run innerCallback call_value call_void (S (S steps)) (S fuel) saved
      ((f <- spawn call ;; x <- await (S afuel) f ;; finish x) w)
    = run innerCallback call_value call_void steps (S fuel) saved'
        (res_bind (Done (awaited op) w') finish) /\
    futures w' !! next_future w = Some (fulfilled op (Cons (next_context w) nullptr)) /\
    ready (scheduler w') = [] /\
    tasks (scheduler w') = [].
Proof.
  intros Hr Ht Hcall Hs.
  pose (f := next_future w). pose (task := TaskValue f call).
  pose (w1 := spawned task w). pose (w2 := suspended f nullptr w1).
  pose (w3 := effect (started task [] (declared w2))).
  destruct (Hcall (started task [] (declared w2))) as (Hc & Hsched & Hfut).
  assert (Hf1 : futures w1 !! f = Some (mkFuture UNRESOLVED (as_cons nullptr)))
    by apply lookup_insert_eq.
  destruct (await_unresolved afuel f nullptr w1 Hf1) as (k & Hk & Hk').
  destruct (loop_runs_task fuel task [] op (next_context w) nullptr w2 w3)
    as (kj & Hl).
  { exact Hr. }
  { cbn. by rewrite Ht. }
  { by apply run_task_stores with (o := o). }
  { unfold w3. rewrite Hfut. cbn. apply lookup_insert_eq. }
  { unfold w3. rewrite Hsched. exact Hr. }
  eexists _, _. split; [|split; [|split]].
  - unfold bind at 1. rewrite (proj1 (spawn_spawned call w)). cbn [res_bind].
    unfold bind at 1. fold f task w1. rewrite Hk. cbn [res_bind run].
    fold w2. rewrite Hl. cbn [run].
    rewrite lookup_insert_ne by (cbn; lia). rewrite lookup_insert_eq.
    rewrite Hk'. unfold throw_spec.
    match goal with
    | |- context [await afuel f ?w0] =>
        destruct (await_fulfilled afuel f op (Cons (next_context w) nullptr) w0)
          as [Ha _]; [cbn; apply lookup_insert_eq | rewrite Ha]
    end.
    assert (Hspec : forall w0 : World,
               res_throw_spec is_ErrorType (Done (awaited op) w0)
               = Done (awaited op) w0) by (intros w0; by destruct op).
    rewrite Hspec. reflexivity.
  - cbn. apply lookup_insert_eq.
  - reflexivity.
  - cbn. unfold w3. by rewrite Hsched.
Qed.

(** X8: the same for the overload of [spawn] for [void] and
    [Future<void, ErrorType>::await]: the caller goes on when the function
    object has returned, gets the error it threw, or ends in
    [std::unexpected()]. *)
Theorem spawn_void_then_await (call : nat) (o : Outcome unit)
    (op : @Completion ValueType ErrorType) (effect : World -> World)
    (finish : unit -> M unit) (steps fuel afuel : nat)
    (saved : gmap fcontext_t (World -> Res unit)) (w : World) :
  ready (scheduler w) = [] -> tasks (scheduler w) = [] ->
  (forall w0, call_void call w0 = Done o (effect w0) /\
              scheduler (effect w0) = scheduler w0 /\
              futures (effect w0) = futures w0) ->
  stores_void o = Some op ->
  exists saved' w',
    run innerCallback call_value call_void (S (S steps)) (S fuel) saved
      ((f <- spawn_void call ;; x <- await_void (S afuel) f ;; finish x) w)
    = run innerCallback call_value call_void steps (S fuel) saved'
        (res_bind (Done (awaited_void op) w') finish) /\
    futures w' !! next_future w = Some (fulfilled op (Cons (next_context w) nullptr)) /\
    ready (scheduler w') = [] /\
    tasks (scheduler w') = [].
Proof.
  intros Hr Ht Hcall Hs.
  pose (f := next_future w). pose (task := TaskVoid f call).
  pose (w1 := spawned task w). pose (w2 := suspended f nullptr w1).
  pose (w3 := effect (started task [] (declared w2))).
  destruct (Hcall (started task [] (declared w2))) as (Hc & Hsched & Hfut).
  assert (Hf1 : futures w1 !! f = Some (mkFuture UNRESOLVED (as_cons nullptr)))
    by apply lookup_insert_eq.
  destruct (await_void_unresolved afuel f nullptr w1 Hf1) as (k & Hk & Hk').
  destruct (loop_runs_task fuel task [] op (next_context w) nullptr w2 w3)
    as (kj & Hl).
  { exact Hr. }
  { cbn. by rewrite Ht. }
  { by apply run_task_stores_void with (o := o). }
  { unfold w3. rewrite Hfut. cbn. apply lookup_insert_eq. }
  { unfold w3. rewrite Hsched. exact Hr. }
  eexists _, _. split; [|split; [|split]].
  - unfold bind at 1. rewrite (proj2 (spawn_spawned call w)). cbn [res_bind].
    unfold bind at 1. fold f task w1. rewrite Hk. cbn [res_bind run].
    fold w2. rewrite Hl. cbn [run].
    rewrite lookup_insert_ne by (cbn; lia). rewrite lookup_insert_eq.
    rewrite Hk'. unfold throw_spec.
    match goal with
    | |- context [await_void afuel f ?w0] =>
        destruct (await_fulfilled afuel f op (Cons (next_context w) nullptr) w0)
          as [_ Ha]; [cbn; apply lookup_insert_eq | rewrite Ha]
    end.
    assert (Hspec : forall w0 : World,
               res_throw_spec is_ErrorType (Done (awaited_void op) w0)
               = Done (awaited_void op) w0) by (intros w0; by destruct op).
    rewrite Hspec. reflexivity.
  - cbn. apply lookup_insert_eq.
  - reflexivity.
  - cbn. unfold w3. by rewrite Hsched.
Qed.

(** ** A fulfilled Future stays as it is *)

Section Final.

Variable this : nat.
Variable fut : FutureBase.
Hypothesis fut_fulfilled : state fut ≠ UNRESOLVED.

Lemma holds_same (w w' : World) :
  futures w' = futures w -> next_future w' = next_future w ->
  holds this fut w -> holds this fut w'.
Proof. unfold holds. by intros -> ->. Qed.

Lemma complete_by_final (op : @Completion ValueType ErrorType) (other : nat) (w : World) :
  holds this fut w -> along (holds this fut) (complete_by op other w).
Proof.
  intros [Hf Hn]. destruct (decide (other = this)) as [->|Hne].
  - by rewrite (complete_by_fulfilled op this fut w Hf fut_fulfilled).
  - destruct (complete_by_cases op other w) as [(c & _ & ->)|(o & -> & _)];
      last done.
    split; last exact Hn. cbn. by rewrite lookup_insert_ne.
Qed.

Lemma suspended_final (other : nat) (c : FContextCons) (w : World) :
  futures w !! other = Some (mkFuture UNRESOLVED (as_cons c)) ->
  holds this fut w -> holds this fut (suspended other c w).
Proof.
  intros Ho [Hf Hn]. split; last exact Hn. cbn.
  rewrite lookup_insert_ne; first exact Hf.
  intros ->. rewrite Hf in Ho. injection Ho as ->. by apply fut_fulfilled.
Qed.

Lemma await_final (fuel other : nat) (w : World) :
  holds this fut w -> along (holds this fut) (await fuel other w).
Proof.
  revert w. induction fuel as [|fuel IH]; intros w H.
  - cbn. unfold throw_spec, bind, deref.
    by destruct (futures w !! other) as [[[] []]|].
  - destruct (futures w !! other) as [[st p]|] eqn:Hf.
    + destruct st, p as [c|e|v];
        try (cbn; unfold throw_spec, bind, deref; by rewrite Hf).
      destruct (await_unresolved fuel other c w Hf) as (k & -> & Hk).
      cbn [along]. split; first by apply suspended_final.
      intros w' Hw'. rewrite Hk. apply along_throw_spec, IH.
      by apply (holds_same w').
    + cbn. unfold throw_spec, bind, deref. by rewrite Hf.
Qed.

Lemma await_void_final (fuel other : nat) (w : World) :
  holds this fut w -> along (holds this fut) (await_void fuel other w).
Proof.
  revert w. induction fuel as [|fuel IH]; intros w H.
  - cbn. unfold throw_spec, bind, deref.
    by destruct (futures w !! other) as [[[] []]|].
  - destruct (futures w !! other) as [[st p]|] eqn:Hf.
    + destruct st, p as [c|e|v];
        try (cbn; unfold throw_spec, bind, deref; by rewrite Hf).
      destruct (await_void_unresolved fuel other c w Hf) as (k & -> & Hk).
      cbn [along]. split; first by apply suspended_final.
      intros w' Hw'. rewrite Hk. apply along_throw_spec, IH.
      by apply (holds_same w').
    + cbn. unfold throw_spec, bind, deref. by rewrite Hf.
Qed.

Lemma spawned_final (task : Task) (w : World) :
  holds this fut w -> holds this fut (spawned task w).
Proof.
  intros [Hf Hn]. split; cbn; last lia.
  rewrite lookup_insert_ne; [exact Hf | lia].
Qed.

(** The user's code leaves the Future as it is, as it does when all it does
    to the Futures is to call the functions above. *)
Hypothesis innerCallback_final : forall w,
  holds this fut w -> along (holds this fut) (innerCallback w).
Hypothesis call_value_final : forall call w,
  holds this fut w -> along (holds this fut) (call_value call w).
Hypothesis call_void_final : forall call w,
  holds this fut w -> along (holds this fut) (call_void call w).

Lemma run_task_final (task : Task) (w : World) :
  holds this fut w -> along (holds this fut) (run_task task w).
Proof.
  intros H.
  assert (Hh : forall x (w1 : World),
             holds this fut w1 ->
             along (holds this fut) (spawn_handlers (fut_of task) x w1)).
  { intros x w1 H1. destruct x; cbn [spawn_handlers].
    - exact H1.
    - by apply (complete_by_final BySetUnexpected).
    - by apply (complete_by_final (BySetError e)).
    - by apply (complete_by_final BySetUnexpected). }
  destruct task as [f call|f call]; cbn [run_task];
    unfold try_catch, bind; apply along_catch; try exact Hh; apply along_bind.
  - by apply call_value_final.
  - intros v w1 H1. by apply (complete_by_final (BySetResult v)).
  - by apply call_void_final.
  - intros _ w1 H1. by apply (complete_by_final BySetResultVoid).
Qed.

Lemma poll_final (fuel : nat) (w : World) :
  holds this fut w -> along (holds this fut) (poll fuel w).
Proof.
  revert w. induction fuel as [|fuel IH]; intros w H.
  - cbn. by destruct (ready (scheduler w)).
  - destruct (ready (scheduler w)) eqn:Hr.
    + destruct (tasks (scheduler w)) as [|task rest] eqn:Ht.
      * rewrite poll_callback by done. apply along_bind.
        -- by apply innerCallback_final.
        -- intros _ w1 H1. by apply IH.
      * rewrite (poll_task fuel task rest) by done. apply along_bind.
        -- apply run_task_final. by apply (holds_same w).
        -- intros _ w1 H1. by apply IH.
    + rewrite poll_ready by by rewrite Hr. exact H.
Qed.

Lemma loop_final (fuel : nat) (w : World) :
  holds this fut w -> along (holds this fut) (loop fuel w).
Proof.
  intros H. rewrite loop_unfold. apply along_noexcept, along_bind.
  - apply along_catch.
    + apply poll_final. by apply (holds_same w).
    + intros x w1 H1. destruct x; cbn; exact H1.
  - intros _ w1 H1. unfold loop_exit.
    destruct (ready (scheduler w1)) as [|exitContext rest]; first exact H1.
    cbn. split; last done. by apply (holds_same w1).
Qed.

End Final.

(** X9: a Future that is fulfilled stays as it is.  No call of the library
    changes its state or its payload afterwards: not a completion method on
    it or on another Future, not [await], not [spawn], and not a run of the
    resolution loop with the tasks and the callback it calls, as long as the
    user's code does not write to the Future by other means.  This holds
    wherever these calls jump away and where they end. *)
Theorem fulfilled_is_final (this : nat) (fut : FutureBase) (w : World) :
  state fut ≠ UNRESOLVED ->
  holds this fut w ->
  (forall w0, holds this fut w0 -> along (holds this fut) (innerCallback w0)) ->
  (forall call w0, holds this fut w0 -> along (holds this fut) (call_value call w0)) ->
  (forall call w0, holds this fut w0 -> along (holds this fut) (call_void call w0)) ->
  (forall op other, along (holds this fut) (complete_by op other w)) /\
  (forall fuel other,
     along (holds this fut) (await fuel other w) /\
     along (holds this fut) (await_void fuel other w)) /\
  (forall call,
     along (holds this fut) (spawn call w) /\
     along (holds this fut) (spawn_void call w)) /\
  (forall fuel, along (holds this fut) (loop fuel w)).
Proof.
  intros Hs H Hcb Hvalue Hvoid. split; [|split; [|split]].
  - intros op other. by apply complete_by_final.
  - intros fuel other. split; [by apply await_final | by apply await_void_final].
  - intros call. destruct (spawn_spawned call w) as [-> ->].
    split; by apply spawned_final.
  - intros fuel. by apply loop_final.
Qed.

(** ** Destruction *)

Lemma complete_by_dangling (op : @Completion ValueType ErrorType) (this : nat) (w : World) :
  futures w !! this = None ->
  complete_by op this w = Done (Undefined DanglingFuture) w.
Proof.
  intros Hf.
  destruct op; cbn;
    unfold setResult, setResult_void, setError, setUnexpected, throw_spec,
      bind, complete, throw_spec, complete_body, bind, deref;
    by rewrite Hf.
Qed.

Lemma await_dangling (fuel this : nat) (w : World) :
  futures w !! this = None ->
  await fuel this w = Done (Undefined DanglingFuture) w /\
  await_void fuel this w = Done (Undefined DanglingFuture) w.
Proof.
  intros Hf. split; destruct fuel; cbn; unfold throw_spec, bind, deref; by rewrite Hf.
Qed.

(** X10: the destructor of a Future destroys the payload that the completion
    method installed, and nothing else: after [setResult(v)] the result [v],
    after [setError(e)] the error [e]; after [setUnexpected()], after the
    [setResult()] of [Future<void, ErrorType>] and on an unresolved Future it
    calls no destructor and does not touch the list of waiting contexts that
    the union still holds.  It never reads a member of the union that is not
    the active one. *)
Theorem destructor_destroys_installed_payload (op : @Completion ValueType ErrorType)
    (this : nat) (c : FContextCons) (w : World) :
  futures w !! this = Some (mkFuture UNRESOLVED (as_cons c)) ->
  Future_destructor this w = Done (Returns None) w /\
  Future_void_destructor this w = Done (Returns None) w /\
  exists w1,
    complete_by op this w = Done (Returns tt) w1 /\
    match op with
    | BySetResult v =>
        Future_destructor this w1 = Done (Returns (Some (DestroyedResult v))) w1
    | BySetResultVoid =>
        Future_void_destructor this w1 = Done (Returns None) w1
    | BySetError e =>
        Future_destructor this w1 = Done (Returns (Some (DestroyedError e))) w1 /\
        Future_void_destructor this w1 = Done (Returns (Some (DestroyedError e))) w1
    | BySetUnexpected =>
        Future_destructor this w1 = Done (Returns None) w1 /\
        Future_void_destructor this w1 = Done (Returns None) w1
    end.
Proof.
  intros Hf.
  split; first (unfold Future_destructor, bind, deref; by rewrite Hf).
  split; first (unfold Future_void_destructor, bind, deref; by rewrite Hf).
  eexists. split; first by apply complete_by_unresolved.
  unfold Future_destructor, Future_void_destructor, bind, deref.
  rewrite completed_lookup. by destruct op.
Qed.

(** X11: the closure of [spawn] holds a plain pointer to the Future that the
    caller owns.  When the caller has deleted the Future (the
    [std::unique_ptr] that [spawn] returned went out of scope) and nothing
    was allocated at its address since, the closure, run afterwards,
    dereferences the dangling pointer, whether its function object returns or
    throws anything but a [FutureAlreadyFulfilled]. *)
Theorem closure_of_deleted_Future_dangles (task : Task)
    (d : option (@Destroyed ValueType ErrorType)) (w0 w w' w1 : World) :
  delete_Future (fut_of task) w0 = Done (Returns d) w \/
  delete_Future_void (fut_of task) w0 = Done (Returns d) w ->
  futures w1 !! fut_of task = futures w !! fut_of task ->
  (forall v, call_returns call_value call_void task v w' w1 ->
     finishes (run_task task w') (Undefined DanglingFuture) w1) /\
  (forall x, x ≠ FutureAlreadyFulfilled ->
     call_raises call_value call_void task x w' w1 ->
     finishes (run_task task w') (Undefined DanglingFuture) w1).
Proof.
  intros Hd Hsame.
  assert (Hgone : futures w !! fut_of task = None).
  { destruct Hd as [Hd|Hd];
      unfold delete_Future, delete_Future_void, Future_destructor,
        Future_void_destructor, bind, deref in Hd;
      destruct (futures w0 !! fut_of task) as [[[] []]|]; cbn in Hd;
      try done; injection Hd as _ <-; cbn; apply lookup_delete_eq. }
  rewrite Hgone in Hsame. split.
  - intros v Hc. eapply run_task_returns; [exact Hc| |done].
    by apply complete_by_dangling.
  - intros x Hx Hc. eapply run_task_raises; [exact Hc|].
    pose proof (complete_by_dangling BySetUnexpected _ _ Hsame) as Hu.
    pose proof (fun e => complete_by_dangling (BySetError e) _ _ Hsame) as He.
    cbn [complete_by] in Hu, He.
    destruct x; try done; cbn [spawn_handlers]; rewrite ?Hu, ?He; constructor.
Qed.

(** X12: deleting a Future that is unresolved does not complete it: nothing
    is destroyed, no waiting context is handed to the ready queue and
    [notifyReady] is not called.  A context that waited, if it is ever
    resumed, calls [await] on the deleted Future, and a completion method
    called later does the same: both dereference a dangling pointer. *)
Theorem deleting_unresolved_strands_waiters (this : nat) (c : FContextCons)
    (w : World) :
  futures w !! this = Some (mkFuture UNRESOLVED (as_cons c)) ->
  exists w',
    delete_Future this w = Done (Returns None) w' /\
    delete_Future_void this w = Done (Returns None) w' /\
    ready (scheduler w') = ready (scheduler w) /\
    history w' = history w /\
    futures w' !! this = None /\
    (forall op, complete_by op this w' = Done (Undefined DanglingFuture) w') /\
    (forall fuel sc (w'' : World),
       futures w'' !! this = None ->
       throw_spec is_ErrorType (await fuel this) (released sc w'')
       = Done (Undefined DanglingFuture) (released sc w'') /\
       throw_spec is_ErrorType (await_void fuel this) (released sc w'')
       = Done (Undefined DanglingFuture) (released sc w'')).
Proof.
  intros Hf. eexists. split; [|split].
  - unfold delete_Future, Future_destructor, bind, deref. rewrite Hf. reflexivity.
  - unfold delete_Future_void, Future_void_destructor, bind, deref. by rewrite Hf.
  - split; first done. split; first done.
    assert (Hgone : delete this (futures w) !! this = None) by apply lookup_delete_eq.
    split; first exact Hgone. split.
    + intros op. by apply complete_by_dangling.
    + intros fuel sc w'' Hw. unfold throw_spec.
      destruct (await_dangling fuel this (released sc w'') Hw) as [-> ->]. by split.
Qed.

(** ** Stacks *)

Lemma filter_fresh (n : nat) (l : list stack_context) :
  Forall (fun s => sp s < n) l -> filter (fun s => sp s ≠ n) l = l.
Proof.
  induction 1 as [|s l Hs _ IH]; first done.
  rewrite filter_cons_True by lia. by rewrite IH.
Qed.

(** X13: [await] gives back the stack it allocated.  The stack of the
    resolution loop that [waitUntilReady] enters is allocated when the caller
    is suspended, it is not one of the stacks that were allocated before, and
    when the caller is resumed after the Future was completed, with the
    nested loops having released theirs, the allocated stacks are again
    those from before the call. *)
Theorem await_releases_its_stack (fuel this : nat) (c : FContextCons) (w : World) :
  futures w !! this = Some (mkFuture UNRESOLVED (as_cons c)) ->
  stacks_fresh w ->
  exists sc k kv,
    await (S fuel) this w = Yield (next_context w) (Entry sc) (suspended this c w) k /\
    await_void (S fuel) this w = Yield (next_context w) (Entry sc) (suspended this c w) kv /\
    (sc ∉ stacks w) /\
    stacks (suspended this c w) = sc :: stacks w /\
    stacks_fresh (suspended this c w) /\
    forall (w' : World) fut,
      stacks w' = stacks (suspended this c w) ->
      futures w' !! this = Some fut -> state fut ≠ UNRESOLVED ->
      exists o ov w'',
        k w' = Done o w'' /\ kv w' = Done ov w'' /\ stacks w'' = stacks w.
Proof.
  intros Hf Hfresh.
  destruct (await_unresolved fuel this c w Hf) as (k & Hk & Hk').
  destruct (await_void_unresolved fuel this c w Hf) as (kv & Hkv & Hkv').
  exists (mkStack (next_stack w) (contextSize (scheduler w))), k, kv.
  split; first exact Hk. split; first exact Hkv. split; [|split; [|split]].
  - intros Hin. unfold stacks_fresh in Hfresh. rewrite Forall_forall in Hfresh.
    apply Hfresh in Hin. cbn in Hin. lia.
  - reflexivity.
  - unfold stacks_fresh in *. cbn. constructor; first (cbn; lia).
    eapply Forall_impl; first exact Hfresh. cbn. intros s Hs. lia.
  - intros w' [st p] Hst Hf' Hs. cbn in Hs.
    assert (Hrel : stacks (released (mkStack (next_stack w) (contextSize (scheduler w))) w')
                   = stacks w).
    { unfold released. cbn [stacks]. rewrite Hst. unfold suspended. cbn [stacks].
      rewrite filter_cons_False by (cbn; lia).
      by apply filter_fresh. }
    rewrite Hk', Hkv'. unfold throw_spec.
    assert (Hf'' : futures (released (mkStack (next_stack w) (contextSize (scheduler w))) w')
                     !! this = Some (mkFuture st p)) by exact Hf'.
    revert Hf'' Hrel.
    generalize (released (mkStack (next_stack w) (contextSize (scheduler w))) w').
    intros wr Hf'' Hrel.
    destruct st; first done;
      destruct p as [c'|e|v], fuel;
      cbn; unfold throw_spec, bind, deref; rewrite Hf''; cbn;
      by eexists _, _, wr.
Qed.

End Properties.

(** * Results on the concrete program *)

Section Concrete.

Import Scenario.

Local Abbreviation exn := (@exn nat).
Local Abbreviation FutureBase := (@FutureBase nat nat).

(** C1: a Future constructed by hand, [setResult(1)] and then
    [setResult(2)].  The first call returns and the Future holds SUCCESS
    with 1; in the second call [complete] throws a pointer to a
    [FutureAlreadyFulfilled], which its exception specification
    [throw (FutureAlreadyFulfilled)] does not allow, so the call ends in
    [std::unexpected()] and no [FutureAlreadyFulfilled] reaches the caller.
    The Future is unchanged. *)
Theorem second_setResult_calls_unexpected :
  exists w1 : World,
    setResult 0 1 one_future = Done (Returns tt) w1 /\
    futures w1 !! 0 = Some (mkFuture SUCCESS (as_result 1)) /\
    complete_body 0 w1 = Done (Throws FutureAlreadyFulfilledPtr) w1 /\
    setResult 0 2 w1 = Done CallsUnexpected w1 /\
    setResult 0 2 w1 ≠ Done (Throws FutureAlreadyFulfilled) w1.
Proof.
  eexists. split; first by apply (setResult_unresolved 0 nullptr).
  split; first by apply completed_lookup.
  split.
  - eapply complete_body_fulfilled; [apply completed_lookup | done].
  - assert (H : setResult 0 2
                  (completed 0 nullptr (mkFuture SUCCESS (as_result 1))
                     (notify_events nullptr ++ [EvState 0 SUCCESS; EvPayload 0])
                     one_future)
                = Done CallsUnexpected
                    (completed 0 nullptr (mkFuture SUCCESS (as_result 1))
                       (notify_events nullptr ++ [EvState 0 SUCCESS; EvPayload 0])
                       one_future)).
    { eapply (completion_fulfilled 0 (mkFuture SUCCESS (as_result 1)));
        [apply completed_lookup | done]. }
    split; first exact H. rewrite H. discriminate.
Qed.

(** Against C2 as stated: the function object of index 2 throws
    [FutureAlreadyFulfilled], which is not of the error type; the closure
    throws it on and the Future stays unresolved instead of becoming
    UNEXPECTED. *)
Lemma spawn_closure_rethrow_not_unexpected :
  is_ErrorType (FutureAlreadyFulfilled : exn) = false /\
  values 2 one_future = Done (Throws FutureAlreadyFulfilled) one_future /\
  run_task values actions (TaskValue 0 2) one_future
  = Done (Throws FutureAlreadyFulfilled) one_future /\
  futures one_future !! 0 = Some (mkFuture UNRESOLVED (as_cons nullptr)).
Proof. repeat split. Qed.

(** Against C4 as stated: in [setResult] on a Future with two waiting
    contexts, [notifyReady] is entered before the state is assigned. *)
Lemma setResult_notifies_before_transition :
  exists w' : World,
    setResult 0 1 two_waiting = Done (Returns tt) w' /\
    history w'
    = [EvNotifyReady (Cons 6 (Cons 5 nullptr)); EvState 0 SUCCESS; EvPayload 0] /\
    notify_after_transition 0 false (history w') = false.
Proof.
  eexists. split; first by apply (setResult_unresolved 0 (Cons 6 (Cons 5 nullptr))).
  by split.
Qed.

(** Against C5 as stated: with a callback that throws a foreign exception the
    resolution loop ends the process though no [FutureAlreadyFulfilled] was
    thrown, and nothing is written to [std::cerr]. *)
Lemma loop_terminates_without_AlreadyFulfilled :
  poll failing values actions 1 (declared start)
  = Done (Throws (Other 0)) (declared start) /\
  loop failing values actions 1 start = Done CallsTerminate (declared start) /\
  cerr (declared start) = [].
Proof. repeat split. Qed.


(** ** The scenarios, run *)

(** [spawn] of a function object that returns 42, then [await]. *)
Example immediate_spawn_await :
  report (run idle values actions 4 4 ∅ (spawn_await 0 start))
  = (Returns tt, [42], [], []).
Proof. vm_compute. reflexivity. Qed.

(** The function object throws the error 7: [await] throws it. *)
Example error_propagation :
  report (run idle values actions 4 4 ∅ (spawn_await 1 start))
  = (Throws (Error 7), [], [], []).
Proof. vm_compute. reflexivity. Qed.

(** The function object throws a foreign exception: [await] calls
    [std::unexpected()]. *)
Example unexpected_error :
  report (run idle values actions 4 4 ∅ (spawn_await 3 start))
  = (CallsUnexpected, [], [], []).
Proof. vm_compute. reflexivity. Qed.

(** The second task awaits the Future of the first and adds one. *)
Example cross_future_wait :
  report (run idle values actions 8 4 ∅ (cross_future start))
  = (Returns tt, [2], [], []).
Proof. vm_compute. reflexivity. Qed.

(** Three tasks that log 0, 2 and 4 run in the order they were spawned. *)
Example tasks_run_in_spawn_order :
  report (run idle values actions 8 4 ∅ (three_tasks start))
  = (Returns tt, [0; 2; 4], [], []).
Proof. vm_compute. reflexivity. Qed.

(** Three tasks await the Future at address 0 and then log 1, 3 and 5; the
    callback completes the Future; they go on in the reverse order. *)
Example waiters_resume_in_reverse_order :
  report (run fulfil values actions 16 4 ∅ (three_waiters one_future))
  = (Returns tt, [5; 3; 1], [], []).
Proof. vm_compute. reflexivity. Qed.

(** The callback completes the awaited Future on its third call. *)
Example progress_step_driving :
  report (run third_tick values actions 4 4 ∅ (await_external one_future))
  = (Returns tt, [0; 0; 0; 9], [], []).
Proof. vm_compute. reflexivity. Qed.

(** ** Instances of the theorems *)

Lemma spawn_closure_completes_witness :
  futures one_future !! fut_of (TaskValue 0 0)
  = Some (mkFuture UNRESOLVED (as_cons nullptr)) /\
  finishes (run_task values actions (TaskValue 0 0) one_future) (Returns tt)
    (completed 0 nullptr (mkFuture SUCCESS (as_result 42))
       [EvState 0 SUCCESS; EvPayload 0] one_future).
Proof.
  split; [reflexivity|].
  apply (proj1 (proj2 (spawn_closure_completes values actions (TaskValue 0 0)
                         nullptr one_future one_future eq_refl)) (Some 42)).
  cbn. constructor.
Defined.

Lemma await_dispatch_witness :
  futures two_waiting !! 0
  = Some (mkFuture UNRESOLVED (as_cons (Cons 6 (Cons 5 nullptr)))) /\
  futures (suspended 0 (Cons 6 (Cons 5 nullptr)) two_waiting) !! 0
  = Some (mkFuture UNRESOLVED (as_cons (Cons 7 (Cons 6 (Cons 5 nullptr))))).
Proof.
  split; [reflexivity|].
  exact (proj1 (@await_dispatch nat nat (list nat) 0 0 _ two_waiting
                  eq_refl _ eq_refl)).
Defined.

Lemma completion_notifies_then_assigns_witness :
  futures two_waiting !! 0
  = Some (mkFuture UNRESOLVED (as_cons (Cons 6 (Cons 5 nullptr)))) /\
  exists w' : World,
    complete_by (BySetResult 1) 0 two_waiting = Done (Returns tt) w' /\
    ready (scheduler w') = [6; 5] /\
    await 0 0 w' = Done (Returns 1) w'.
Proof.
  split; [reflexivity|].
  destruct (@completion_notifies_then_assigns nat nat (list nat)
              (BySetResult 1) 0 (Cons 6 (Cons 5 nullptr)) two_waiting eq_refl)
    as (w' & H1 & _ & H3 & _ & H5).
  exists w'. split; [exact H1|]. split; [exact H3|]. exact (H5 0 w' eq_refl).
Defined.

Lemma loop_terminates_on_exception_witness :
  finishes (poll idle values actions 1 (declared one_task))
    (Throws FutureAlreadyFulfilled)
    (started (TaskValue 0 2) [] (declared one_task)) /\
  finishes (loop idle values actions 1 one_task) CallsTerminate
    (with_cerr
       [String.append
          "A Future was fulfilled a second time within a Scheduler loop. This is non-recoverable."
          (String "010"%char EmptyString)]
       (started (TaskValue 0 2) [] (declared one_task))).
Proof.
  split; [cbn; constructor|].
  apply (proj1 (loop_terminates_on_exception idle values actions 1
                  FutureAlreadyFulfilled one_task
                  (started (TaskValue 0 2) [] (declared one_task))
                  (finishes_done _ _))).
Defined.

Lemma spawn_closure_rethrows_witness :
  call_raises values actions (TaskValue 0 2) FutureAlreadyFulfilled one_future one_future /\
  finishes (run_task values actions (TaskValue 0 2) one_future)
    (Throws FutureAlreadyFulfilled) one_future.
Proof.
  split; [cbn; constructor|].
  apply (spawn_closure_rethrows values actions (TaskValue 0 2) one_future one_future).
  cbn. constructor.
Defined.

Lemma loop_runs_tasks_first_in_first_out_witness :
  ready (scheduler two_spawned) = [] /\
  fifo two_spawned /\
  tasks (scheduler two_spawned) = [TaskValue 0 0; TaskVoid 1 0] /\
  poll idle constant nothing 3 two_spawned
  = res_bind (run_task constant nothing (TaskValue 0 0)
                (started (TaskValue 0 0) [TaskVoid 1 0] two_spawned))
             (fun _ => poll idle constant nothing 2) /\
  tasks (scheduler (started (TaskValue 0 0) [TaskVoid 1 0] two_spawned))
  = [TaskVoid 1 0] /\
  started_tasks (history (started (TaskValue 0 0) [TaskVoid 1 0] two_spawned))
  = [TaskValue 0 0] /\
  along fifo (loop idle constant nothing 2 two_spawned) /\
  exists w_end : World,
    loop idle constant nothing 2 two_spawned = Done OutOfFuel w_end /\
    started_tasks (history w_end) = [TaskValue 0 0; TaskVoid 1 0] /\
    tasks (scheduler w_end) = [].
Proof.
  split; [reflexivity|]. split; [reflexivity|]. split; [reflexivity|].
  destruct (loop_runs_tasks_first_in_first_out idle constant nothing 2 two_spawned
              eq_refl eq_refl
              (fun w0 H => H) (fun call w0 H => H) (fun call w0 H => H))
    as ((H1 & H2 & H3 & _) & _ & H5).
  split; [exact H1|].
  split; [exact (f_equal (fun x : World => tasks (scheduler x)) H2)|].
  split; [exact H3|].
  split; [exact H5|].
  eexists. split; [vm_compute; reflexivity|]. split; reflexivity.
Defined.



Lemma loop_exit_reached_with_ready_witness :
  finishes (try_catch (poll fulfil values actions 2) loop_handler two_waiting)
    (Returns tt)
    (completed 0 (Cons 6 (Cons 5 nullptr)) (mkFuture SUCCESS (as_result 9))
       [EvNotifyReady (Cons 6 (Cons 5 nullptr)); EvState 0 SUCCESS; EvPayload 0]
       two_waiting) /\
  exists exitContext rest,
    ready (scheduler
             (completed 0 (Cons 6 (Cons 5 nullptr)) (mkFuture SUCCESS (as_result 9))
                [EvNotifyReady (Cons 6 (Cons 5 nullptr)); EvState 0 SUCCESS; EvPayload 0]
                two_waiting))
    = exitContext :: rest.
Proof.
  assert (H : finishes
                (try_catch (poll fulfil values actions 2) loop_handler two_waiting)
                (Returns tt)
                (completed 0 (Cons 6 (Cons 5 nullptr)) (mkFuture SUCCESS (as_result 9))
                   [EvNotifyReady (Cons 6 (Cons 5 nullptr)); EvState 0 SUCCESS;
                    EvPayload 0] two_waiting))
    by (vm_compute; constructor).
  split; [exact H|].
  destruct (loop_exit_reached_with_ready fulfil values actions 2 two_waiting _ H)
    as (exitContext & rest & Hr & _).
  exists exitContext, rest. exact Hr.
Defined.

(** ** Instances of the further results *)

Lemma await_ends_as_stored_witness :
  finishes (await 1 0 one_future) (Returns 9)
    (released (mkStack 0 4096) one_fulfilled) /\
  ends_as_stored (fun v p => p = as_result v) 0 (Returns 9)
    (released (mkStack 0 4096) one_fulfilled).
Proof.
  assert (H : finishes (await 1 0 one_future) (Returns 9)
                (released (mkStack 0 4096) one_fulfilled)).
  { apply (@finishes_resumed _ _ _ _ 0 (Entry (mkStack 0 4096)) one_suspended _
             one_fulfilled).
    vm_compute. constructor. }
  split; [exact H|].
  exact (@await_ends_as_stored nat nat (list nat) 1 0 one_future _ _ H).
Defined.

Lemma await_void_ends_as_stored_witness :
  finishes (await_void 1 0 one_future) (Returns tt)
    (released (mkStack 0 4096) one_fulfilled) /\
  ends_as_stored (fun _ _ => True) 0 (Returns tt)
    (released (mkStack 0 4096) one_fulfilled).
Proof.
  assert (H : finishes (await_void 1 0 one_future) (Returns tt)
                (released (mkStack 0 4096) one_fulfilled)).
  { apply (@finishes_resumed _ _ _ _ 0 (Entry (mkStack 0 4096)) one_suspended _
             one_fulfilled).
    vm_compute. constructor. }
  split; [exact H|].
  exact (@await_void_ends_as_stored nat nat (list nat) 1 0 one_future _ _ H).
Defined.

Lemma spawn_closure_throws_only_AlreadyFulfilled_witness :
  finishes (run_task values actions (TaskValue 0 2) one_future)
    (Throws FutureAlreadyFulfilled) one_future /\
  call_raises values actions (TaskValue 0 2) FutureAlreadyFulfilled one_future one_future.
Proof.
  assert (H : finishes (run_task values actions (TaskValue 0 2) one_future)
                (Throws FutureAlreadyFulfilled) one_future)
    by (cbn; constructor).
  split; [exact H|].
  exact (proj2 (spawn_closure_throws_only_AlreadyFulfilled values actions
                  (TaskValue 0 2) FutureAlreadyFulfilled one_future one_future H)).
Defined.

Lemma loop_drives_progress_witness :
  ready (scheduler (ticks (after third_tick) 3 (declared one_suspended))) = [0] /\
  first_jump (loop third_tick values actions 3 one_suspended)
  = Some (1, Resume 0,
          with_ready [] (ticks (after third_tick) 3 (declared one_suspended))).
Proof.
  split; [reflexivity|].
  refine (proj2 (loop_drives_progress third_tick values actions (after third_tick)
                   3 0 0 [] one_suspended _ eq_refl)).
  intros i Hi.
  destruct i as [|[|[|i]]]; [vm_compute; repeat split .. | lia].
Defined.

Lemma spawn_then_await_witness :
  ready (scheduler start) = [] /\ tasks (scheduler start) = [] /\
  exists saved' (w' : World),
    run idle values actions 4 4 ∅ (spawn_await 0 start)
    = run idle values actions 2 4 saved' (note 42 w') /\
    futures w' !! 0 = Some (mkFuture SUCCESS (as_result 42)).
Proof.
  split; [reflexivity|]. split; [reflexivity|].
  destruct (spawn_then_await idle values actions 0 (Returns 42) (BySetResult 42)
              (fun w0 => w0) note 2 3 1 ∅ start eq_refl eq_refl
              (fun w0 => conj eq_refl (conj eq_refl eq_refl)) eq_refl)
    as (saved' & w' & H1 & H2 & _).
  exists saved', w'. split; [exact H1 | exact H2].
Defined.

Lemma spawn_void_then_await_witness :
  ready (scheduler start) = [] /\ tasks (scheduler start) = [] /\
  exists saved' (w' : World),
    run idle values actions 4 4 ∅ (spawn_await_void 1 start)
    = run idle values actions 2 4 saved' (Done (Throws (Error 7)) w') /\
    futures w' !! 0 = Some (mkFuture FAILURE (as_error 7)).
Proof.
  split; [reflexivity|]. split; [reflexivity|].
  destruct (spawn_void_then_await idle values actions 1 (Throws (Error 7))
              (BySetError 7) (fun w0 => w0) ret 2 3 1 ∅ start eq_refl eq_refl
              (fun w0 => conj eq_refl (conj eq_refl eq_refl)) eq_refl)
    as (saved' & w' & H1 & H2 & _).
  exists saved', w'. split; [exact H1 | exact H2].
Defined.

Lemma fulfilled_is_final_witness :
  holds 0 (mkFuture SUCCESS (as_result 9)) one_fulfilled /\
  along (holds 0 (mkFuture SUCCESS (as_result 9)))
    (loop idle constant nothing 2 one_fulfilled).
Proof.
  assert (H : holds 0 (mkFuture SUCCESS (as_result 9)) one_fulfilled)
    by (split; [reflexivity | cbn; lia]).
  split; [exact H|].
  refine (proj2 (proj2 (proj2
            (fulfilled_is_final idle constant nothing 0
               (mkFuture SUCCESS (as_result 9)) one_fulfilled _ H
               (fun w0 H0 => H0) (fun call w0 H0 => H0) (fun call w0 H0 => H0)))) 2).
  discriminate.
Defined.

Lemma destructor_destroys_installed_payload_witness :
  futures two_waiting !! 0
  = Some (mkFuture UNRESOLVED (as_cons (Cons 6 (Cons 5 nullptr)))) /\
  exists w1 : World,
    complete_by (BySetResult 1) 0 two_waiting = Done (Returns tt) w1 /\
    Future_destructor 0 w1 = Done (Returns (Some (DestroyedResult 1))) w1.
Proof.
  split; [reflexivity|].
  exact (proj2 (proj2 (@destructor_destroys_installed_payload nat nat (list nat)
                         (BySetResult 1) 0 (Cons 6 (Cons 5 nullptr)) two_waiting
                         eq_refl))).
Defined.

Lemma closure_of_deleted_Future_dangles_witness :
  delete_Future 0 one_future = Done (Returns None) one_deleted /\
  call_returns values actions (TaskValue 0 0) (Some 42) one_deleted one_deleted /\
  finishes (run_task values actions (TaskValue 0 0) one_deleted)
    (Undefined DanglingFuture) one_deleted.
Proof.
  assert (Hc : call_returns values actions (TaskValue 0 0) (Some 42)
                 one_deleted one_deleted) by (cbn; constructor).
  split; [reflexivity|]. split; [exact Hc|].
  exact (proj1 (closure_of_deleted_Future_dangles values actions (TaskValue 0 0)
                  None one_future one_deleted one_deleted one_deleted
                  (or_introl eq_refl) eq_refl) (Some 42) Hc).
Defined.

Lemma deleting_unresolved_strands_waiters_witness :
  futures two_waiting !! 0
  = Some (mkFuture UNRESOLVED (as_cons (Cons 6 (Cons 5 nullptr)))) /\
  exists w' : World,
    delete_Future 0 two_waiting = Done (Returns None) w' /\
    ready (scheduler w') = [] /\
    futures w' !! 0 = None.
Proof.
  split; [reflexivity|].
  destruct (@deleting_unresolved_strands_waiters nat nat (list nat) 0
              (Cons 6 (Cons 5 nullptr)) two_waiting eq_refl)
    as (w' & H1 & _ & H3 & _ & H5 & _).
  exists w'. split; [exact H1|]. split; [exact H3 | exact H5].
Defined.

Lemma await_releases_its_stack_witness :
  futures one_future !! 0 = Some (mkFuture UNRESOLVED (as_cons nullptr)) /\
  stacks_fresh one_future /\
  exists sc k,
    await 1 0 one_future = Yield 0 (Entry sc) one_suspended k /\
    stacks one_suspended = sc :: stacks one_future /\
    exists o w'', k one_fulfilled = Done o w'' /\ stacks w'' = stacks one_future.
Proof.
  split; [reflexivity|]. split; [constructor|].
  destruct (@await_releases_its_stack nat nat (list nat) 0 0 nullptr one_future
              eq_refl (List.Forall_nil _))
    as (sc & k & kv & H1 & _ & _ & H4 & _ & H6).
  exists sc, k. split; [exact H1|]. split; [exact H4|].
  destruct (H6 one_fulfilled (mkFuture SUCCESS (as_result 9)) eq_refl eq_refl)
    as (o & ov & w'' & Hk & _ & Hs); [discriminate|].
  exists o, w''. split; [exact Hk | exact Hs].
Defined.

Lemma second_completion_fails_witness :
  exists w1 : World,
    complete_by (BySetResult 1) 0 one_future = Done (Returns tt) w1 /\
    complete_by (BySetError 2) 0 w1 = Done CallsUnexpected w1.
Proof.
  pose proof (@complete_by_unresolved nat nat (list nat) (BySetResult 1) 0 nullptr
                one_future eq_refl) as H.
  eexists. split; [exact H|].
  exact (@second_completion_fails nat nat (list nat) (BySetResult 1) (BySetError 2)
           0 one_future _ H).
Defined.

Lemma loop_front_witness :
  finishes (loop idle constant nothing 0 (with_ready [0] one_future))
    (Returns tt) one_future /\
  (Returns tt : @Outcome nat unit) ≠ Undefined FrontOfEmptyDeque.
Proof.
  assert (H : finishes (loop idle constant nothing 0 (with_ready [0] one_future))
                (Returns tt) one_future).
  { apply (@finishes_resumed _ _ _ _ 0 (Resume 0)
             (with_ready [] (declared (with_ready [0] one_future))) _ one_future).
    cbn. constructor. }
  split; [exact H|].
  assert (Hpure : forall A (a : A) (w0 : World) o w',
             finishes (Done (Returns a) w0) o w' -> o ≠ Undefined FrontOfEmptyDeque).
  { intros A a w0 o w' H0. apply finishes_Done_inv in H0 as [-> _]. discriminate. }
  exact (loop_front idle constant nothing
           (Hpure unit tt) (fun call => Hpure nat 42) (fun call => Hpure unit tt)
           0 (with_ready [0] one_future) (Returns tt) one_future H).
Defined.

Lemma await_spins_without_progress_witness :
  futures one_future !! 0 = Some (mkFuture UNRESOLVED (as_cons nullptr)) /\
  run idle values actions 1 1000 ∅ (await_external one_future)
  = (OutOfFuel, declared one_suspended).
Proof.
  split; [reflexivity|].
  exact (proj2 (await_spins_without_progress idle values actions 0 nullptr note
                  0 1000 1 ∅ one_future eq_refl eq_refl eq_refl eq_refl)).
Defined.

End Concrete.
